(** * Active-set QP solver (gtsam_unstable/linear/QPSolver.cpp)

    A shallow embedding of [QPSolver] and of the properties stated about it.

    Scalars: a finite C++ [double] is a rational number, so the values are
    rationals [Q] and the comparisons are the boolean comparisons of [Q].
    The four operations of the source round; they are the operations of an
    [Arith], of which the development knows two: [exact], that does not
    round, and [binary64], that rounds to the nearest [double], ties to
    even.  Every property holds for every arithmetic unless it says that no
    operation rounds.  Infinities and NaN are outside the model.

    Objects: a [LinearInequality] lives in a store and a working set
    ([InequalityFactorGraph]) is a vector of references into that store, as
    the [boost::shared_ptr]s of the source are.  Copying a working set copies
    the references, not the constraints. *)

From Stdlib Require Import ZArith QArith Qabs Lqa Sorted.
From stdpp Require Import base option list gmap.

Local Open Scope Q_scope.

(** ** Failures *)

Inductive exn : Type :=
  | InfeasibleInitialValues   (* thrown by identifyActiveConstraints *)
  | OutOfRange                (* std::out_of_range of [at] *)
  | InvalidArgument           (* VectorValues arithmetic on different structures *)
  | DimensionMismatch         (* vector operation on different sizes, or [v[0]] of an empty vector *)
  | NullPointer               (* a reference that points to no constraint *)
  | SolverFailure.            (* the linear solve gave no solution *)

Inductive result (A : Type) : Type :=
  | Ok (a : A)
  | Raise (e : exn).
Arguments Ok {A} a.
Arguments Raise {A} e.

#[global] Instance result_ret : MRet result := fun A a => Ok a.
#[global] Instance result_bind : MBind result := fun A B k m =>
  match m with
  | Ok a => k a
  | Raise e => Raise e
  end.

Definition of_option {A} (e : exn) (o : option A) : result A :=
  match o with
  | Some a => Ok a
  | None => Raise e
  end.

(** ** Scalars and vectors *)

Definition Qlt_bool (x y : Q) : bool := negb (Qle_bool y x).

(** The fixed tolerance of the source: the literal [1e-7] is the [double]
    nearest to [10^-7], which is [944473296573929 / 2^73]. *)
Definition tol7 : Q := 944473296573929 # 9444732965739290427392.

(** The operations [+], [-], [*] and [/] on [double]s.  The difference of a
    number and itself is zero, whatever the rounding. *)
Class Arith : Type := {
  fadd : Q -> Q -> Q;
  fsub : Q -> Q -> Q;
  fmul : Q -> Q -> Q;
  fdiv : Q -> Q -> Q;
  fsub_diag : forall x : Q, fsub x x == 0
}.

(** The arithmetic that does not round. *)
#[global] Instance exact : Arith := {|
  fadd := Qplus;
  fsub := Qminus;
  fmul := Qmult;
  fdiv := Qdiv;
  fsub_diag := Qplus_opp_r
|}.

(** Rounding to the nearest [double], ties to even: 53 significant bits,
    and the fixed quantum [2^-1074] below the normal range, so that a
    quotient too small for a [double] rounds to zero.  A result above the
    largest [double] is an infinity and is outside the model. *)
Definition round_half_even (n d : Z) : Z :=
  let q := (n / d)%Z in
  let r := (n mod d)%Z in
  match (2 * r ?= d)%Z with
  | Lt => q
  | Gt => (q + 1)%Z
  | Eq => if Z.even q then q else (q + 1)%Z
  end.

(** The largest [e] with [2^e <= n / d]. *)
Definition floor_log2 (n d : positive) : Z :=
  let e := (Z.log2 (Zpos n) - Z.log2 (Zpos d))%Z in
  if (0 <=? e)%Z
  then if (Zpos d * 2 ^ e <=? Zpos n)%Z then e else (e - 1)%Z
  else if (Zpos d <=? Zpos n * 2 ^ (- e))%Z then e else (e - 1)%Z.

Definition round_magnitude (n d : positive) : Q :=
  let e := Z.max (floor_log2 n d - 52) (-1074) in
  if (0 <=? e)%Z
  then inject_Z (round_half_even (Zpos n) (Zpos d * 2 ^ e) * 2 ^ e)
  else Qred (Qmake (round_half_even (Zpos n * 2 ^ (- e)) (Zpos d))
                   (Z.to_pos (2 ^ (- e)))).

Definition round_binary64 (q : Q) : Q :=
  match Qnum q with
  | Z0 => 0
  | Zpos n => round_magnitude n (Qden q)
  | Zneg n => - round_magnitude n (Qden q)
  end.

Lemma round_binary64_diag (x : Q) : round_binary64 (x - x) == 0.
Proof.
  unfold round_binary64.
  assert (H : Qnum (x - x) = 0%Z) by (simpl; lia).
  by rewrite H.
Qed.

(** The arithmetic of the [double]s. *)
Definition binary64 : Arith := {|
  fadd := fun x y => round_binary64 (x + y);
  fsub := fun x y => round_binary64 (x - y);
  fmul := fun x y => round_binary64 (x * y);
  fdiv := fun x y => round_binary64 (x / y);
  fsub_diag := round_binary64_diag
|}.

Abbreviation Key := N.
Abbreviation Vector := (list Q).
Abbreviation Matrix := (list (list Q)).
Abbreviation VectorValues := (gmap Key Vector).

Definition zero (n : nat) : Vector := replicate n 0.

Section Numeric.
Context {A : Arith}.

(** [a.dot(v)]: defined on vectors of one size.  The order in which the
    products are added is not fixed by the sources at hand; the properties
    below that hold for every arithmetic do not depend on it. *)
Definition dot (a v : Vector) : result Q :=
  if decide (length a = length v)
  then Ok (foldr fadd 0 (zip_with fmul a v))
  else Raise DimensionMismatch.

(** [b += g] on vectors. *)
Definition vec_add (a v : Vector) : result Vector :=
  if decide (length a = length v)
  then Ok (zip_with fadd a v)
  else Raise DimensionMismatch.

(** [v[0]]. *)
Definition first_component (v : Vector) : result Q :=
  of_option DimensionMismatch (head v).

(** Modelled from the spec: [equal_with_abs_tol] on vectors, which is not
    in the sources at hand: same size and every component within [tol]. *)
Definition equal_with_abs_tol (v w : Vector) (tol : Q) : bool :=
  bool_decide (length v = length w)
  && forallb (fun '(x, y) => Qle_bool (Qabs (fsub x y)) tol) (zip v w).

(** ** VectorValues: one vector per variable *)

Definition vv_at (x : VectorValues) (k : Key) : result Vector :=
  of_option OutOfRange (x !! k).

Definition vv_exists (x : VectorValues) (k : Key) : bool :=
  bool_decide (is_Some (x !! k)).

Definition vv_size (x : VectorValues) : nat := size x.

Definition hasSameStructure (x y : VectorValues) : bool :=
  bool_decide (dom x = dom y)
  && forallb (fun '(k, v) =>
                match y !! k with
                | Some w => bool_decide (length v = length w)
                | None => false
                end) (map_to_list x).

(** Modelled from the spec: [VectorValues::operator-], [operator+] and the
    scalar product, which are not in the sources at hand.  The sum and the
    difference are defined on points of one structure. *)
Definition vv_sub (x y : VectorValues) : result VectorValues :=
  if hasSameStructure x y
  then Ok (map_zip_with (zip_with fsub) x y)
  else Raise InvalidArgument.

Definition vv_add (x y : VectorValues) : result VectorValues :=
  if hasSameStructure x y
  then Ok (map_zip_with (zip_with fadd) x y)
  else Raise InvalidArgument.

Definition vv_scale (a : Q) (x : VectorValues) : VectorValues :=
  (fun v : list Q => fmul a <$> v) <$> x.

(** Modelled from the spec: [VectorValues::equals(x, tol)]: the same
    variables, and every vector equal within [tol]. *)
Definition vv_equals (x y : VectorValues) (tol : Q) : bool :=
  bool_decide (dom x = dom y)
  && forallb (fun '(k, v) =>
                match y !! k with
                | Some w => equal_with_abs_tol v w tol
                | None => false
                end) (map_to_list x).

(** ** Inequality terms *)

(** Modelled from the spec: the class [LinearInequality] is declared in a
    header that is not in the sources at hand.  A term is the constraint
    [a'x <= b]: one coefficient row per variable, the bound, the key of its
    Lagrange multiplier, and the activation flag. *)
Record LinearInequality : Type := mkLinearInequality {
  terms : list (Key * Vector);
  getb : Q;
  dualKey : Key;
  active : bool
}.

Definition activate (f : LinearInequality) : LinearInequality :=
  mkLinearInequality (terms f) (getb f) (dualKey f) true.

Definition inactivate (f : LinearInequality) : LinearInequality :=
  mkLinearInequality (terms f) (getb f) (dualKey f) false.

(** Modelled from the spec: [dotProductRow(p)], the dot product of the
    constraint row with a point: [aTp += aj.dot(p.at(key))] over the terms. *)
Fixpoint dotProductRow_from (ts : list (Key * Vector)) (p : VectorValues)
    (aTp : Q) : result Q :=
  match ts with
  | [] => Ok aTp
  | (k, aj) :: ts' =>
      pj ← vv_at p k;
      d ← dot aj pj;
      dotProductRow_from ts' p (fadd aTp d)
  end.

Definition dotProductRow (f : LinearInequality) (p : VectorValues) : result Q :=
  dotProductRow_from (terms f) p 0.

(** Modelled from the spec: [error(x)], the violation [a'x - b] of the
    constraint at a point. *)
Definition error (f : LinearInequality) (x : VectorValues) : result Q :=
  aTx ← dotProductRow f x;
  Ok (fsub aTx (getb f)).

(** ** Leaving constraint (QPSolver.cpp:93-111) *)

(** The loop of [identifyLeavingConstraint], from index [factorIx] on.  The
    index is stored in an [int]; it is kept exact, as it is for a working
    set of fewer than [2^31] constraints. *)
Fixpoint identifyLeavingConstraint_from (workingSet : list LinearInequality)
    (lambdas : VectorValues) (factorIx : nat) (worstFactorIx : Z)
    (maxLambda : Q) : result Z :=
  match workingSet with
  | [] => Ok worstFactorIx
  | factor :: rest =>
      if active factor then
        v ← vv_at lambdas (dualKey factor);
        lambda ← first_component v;
        if Qlt_bool maxLambda lambda
        then identifyLeavingConstraint_from rest lambdas (S factorIx)
               (Z.of_nat factorIx) lambda
        else identifyLeavingConstraint_from rest lambdas (S factorIx)
               worstFactorIx maxLambda
      else identifyLeavingConstraint_from rest lambdas (S factorIx)
             worstFactorIx maxLambda
  end.

Definition identifyLeavingConstraint (workingSet : list LinearInequality)
    (lambdas : VectorValues) : result Z :=
  identifyLeavingConstraint_from workingSet lambdas 0 (-1)%Z 0.

(** ** Step length (QPSolver.cpp:129-166) *)

(** The loop of [computeStepSize], from index [factorIx] on. *)
Fixpoint computeStepSize_from (workingSet : list LinearInequality)
    (xk p : VectorValues) (factorIx : nat) (minAlpha : Q)
    (closestFactorIx : Z) : result (Q * Z) :=
  match workingSet with
  | [] => Ok (minAlpha, closestFactorIx)
  | factor :: rest =>
      let b := getb factor in
      if negb (active factor) then
        aTp ← dotProductRow factor p;
        if Qle_bool aTp 0
        then computeStepSize_from rest xk p (S factorIx) minAlpha closestFactorIx
        else
          aTx ← dotProductRow factor xk;
          let alpha := fdiv (fsub b aTx) aTp in
          if Qlt_bool alpha minAlpha
          then computeStepSize_from rest xk p (S factorIx) alpha (Z.of_nat factorIx)
          else computeStepSize_from rest xk p (S factorIx) minAlpha closestFactorIx
      else computeStepSize_from rest xk p (S factorIx) minAlpha closestFactorIx
  end.

Definition computeStepSize (workingSet : list LinearInequality)
    (xk p : VectorValues) : result (Q * Z) :=
  computeStepSize_from workingSet xk p 0 1 (-1)%Z.

End Numeric.

(** ** The store of constraint objects *)

(** A reference is an index into the store; the store grows by allocation
    and a constraint is changed in place through a reference. *)
Abbreviation Store := (list LinearInequality).
Abbreviation InequalityFactorGraph := (list nat).

Definition deref (σ : Store) (l : nat) : result LinearInequality :=
  of_option NullPointer (σ !! l).

(** [new LinearInequality(factor)]: a fresh object holding a copy. *)
Definition new_LinearInequality (σ : Store) (factor : LinearInequality)
    : nat * Store :=
  (length σ, σ ++ [factor]).

(** [l->activate()] and [l->inactivate()]. *)
Definition activate_at (σ : Store) (l : nat) : result Store :=
  f ← deref σ l;
  Ok (<[l := activate f]> σ).

Definition inactivate_at (σ : Store) (l : nat) : result Store :=
  f ← deref σ l;
  Ok (<[l := inactivate f]> σ).

(** The constraints a graph refers to, in the order of the graph. *)
Definition readGraph (σ : Store) (g : InequalityFactorGraph)
    : result (list LinearInequality) :=
  mapM (deref σ) g.

(** [g.at(i)] for an [int] index. *)
Definition graph_at {A} (g : list A) (i : Z) : result A :=
  if (i <? 0)%Z then Raise OutOfRange
  else of_option OutOfRange (g !! Z.to_nat i).

(** ** Equalities, dual factors and the linear solver *)

(** Modelled from the spec: [LinearEquality] is declared in a header that is
    not in the sources at hand: coefficient blocks per variable, right-hand
    side and the key of its multiplier; an equality is always active. *)
Record LinearEquality : Type := mkLinearEquality {
  eq_terms : list (Key * Matrix);
  eq_b : Vector;
  eq_dualKey : Key
}.

(** Modelled from the spec: [JacobianFactor], declared in a header that is
    not in the sources at hand, as far as the dual graph needs it: the
    blocks [Aterms] paired with their keys and the right-hand side [b]; the
    empty factor has no terms. *)
Record JacobianFactor : Type := mkJacobianFactor {
  jac_terms : list (Key * Matrix);
  jac_b : Vector
}.

Definition emptyJacobianFactor : JacobianFactor := mkJacobianFactor [] [].

Definition jac_empty (j : JacobianFactor) : bool :=
  match jac_terms j with
  | [] => true
  | _ :: _ => false
  end.

(** The terms a [GaussianFactorGraph] can hold here: a cost term, an
    equality, an inequality used as an equality at its bound, a dual factor. *)
Inductive GaussianFactor (C : Type) : Type :=
  | CostTerm (c : C)
  | EqualityTerm (e : LinearEquality)
  | InequalityTerm (f : LinearInequality)
  | JacobianTerm (j : JacobianFactor).
Arguments CostTerm {C} c.
Arguments EqualityTerm {C} e.
Arguments InequalityTerm {C} f.
Arguments JacobianTerm {C} j.

(** The collaborators the solver consumes and that are not in the sources at
    hand: the type of cost terms with their variables and their gradient
    [factor->gradient(key, x)], and [GaussianFactorGraph::optimize]. *)
Class LinearBackend : Type := {
  Cost : Type;
  costKeys : Cost -> list Key;
  gradient : Cost -> Key -> VectorValues -> result Vector;
  optimizeGraph : list (GaussianFactor Cost) -> result VectorValues
}.

(** Modelled from the spec: [VariableIndex], which is not in the sources at
    hand: for each variable the indices of the terms it occurs in, in the
    order of the graph. *)
Abbreviation VariableIndex := (gmap Key (list nat)).

Definition index_term (idx : VariableIndex) (i : nat) (ks : list Key)
    : VariableIndex :=
  foldl (fun (m : VariableIndex) k => <[k := default [] (m !! k) ++ [i]]> m) idx ks.

Fixpoint variableIndex_from (i : nat) (keyss : list (list Key))
    (idx : VariableIndex) : VariableIndex :=
  match keyss with
  | [] => idx
  | ks :: rest => variableIndex_from (S i) rest (index_term idx i ks)
  end.

Definition variableIndex (keyss : list (list Key)) : VariableIndex :=
  variableIndex_from 0 keyss ∅.

(** Modelled from the spec: [KeySet], the set of constrained keys, which is
    not in the sources at hand: an ordered set of keys, as the ascending
    list of its members. *)
Fixpoint keyset_insert (k : Key) (s : list Key) : list Key :=
  match s with
  | [] => [k]
  | k' :: s' =>
      if (k <? k')%N then k :: s
      else if (k =? k')%N then s
      else k' :: keyset_insert k s'
  end.

Definition keyset_merge (ks s : list Key) : list Key :=
  foldl (fun s k => keyset_insert k s) s ks.

(** [getA(find(key)).transpose()] of a matrix given by its rows. *)
Fixpoint transpose (m : Matrix) : Matrix :=
  match m with
  | [] => []
  | [row] => (fun a => [a]) <$> row
  | row :: rest => zip_with cons row (transpose rest)
  end.

Definition find_block {A} (key : Key) (ts : list (Key * A)) : result A :=
  of_option OutOfRange (snd <$> List.find (fun t => (fst t =? key)%N) ts).

Section Solver.
Context {A : Arith} {B : LinearBackend}.

(** The problem: cost terms, equalities, inequalities.  The solver reads
    the constraints of the problem and never changes them, so they are held
    as values; the copies it flags live in the store. *)
Record QP : Type := mkQP {
  cost : list Cost;
  equalities : list LinearEquality;
  inequalities : list LinearInequality
}.

(** The state passed between iterations; [iterations] is a counter that
    only grows. *)
Record QPState : Type := mkQPState {
  values : VectorValues;
  duals : VectorValues;
  workingSet : InequalityFactorGraph;
  converged : bool;
  iterations : N
}.

Variable qp_ : QP.

(** What the constructor (QPSolver.cpp:30-38) derives from the problem. *)
Definition baseGraph_ : list (GaussianFactor Cost) :=
  (CostTerm <$> cost qp_) ++ (EqualityTerm <$> equalities qp_).

Definition costVariableIndex_ : VariableIndex :=
  variableIndex (costKeys <$> cost qp_).
Definition equalityVariableIndex_ : VariableIndex :=
  variableIndex ((fun e => fst <$> eq_terms e) <$> equalities qp_).
Definition inequalityVariableIndex_ : VariableIndex :=
  variableIndex ((fun f => fst <$> terms f) <$> inequalities qp_).

Definition constrainedKeys_ : list Key :=
  keyset_merge (concat ((fun f => fst <$> terms f) <$> inequalities qp_))
    (keyset_merge (concat ((fun e => fst <$> eq_terms e) <$> equalities qp_)) []).

(** QPSolver.cpp:41-49. *)
Definition solveWithCurrentWorkingSet (workingSet : list LinearInequality)
    : result VectorValues :=
  optimizeGraph
    (baseGraph_ ++ (InequalityTerm <$> filter (fun f => active f = true) workingSet)).

(** Modelled from the spec: [collectDualJacobians], a template of the
    header that is not in the sources at hand: for every active term of the
    graph that touches [key], the transposed coefficient block paired with
    the term's dual key. *)
Fixpoint collectDualJacobians_eq (key : Key) (graph : list LinearEquality)
    (ixs : list nat) : result (list (Key * Matrix)) :=
  match ixs with
  | [] => Ok []
  | factorIx :: rest =>
      factor ← of_option OutOfRange (graph !! factorIx);
      Ai ← find_block key (eq_terms factor);
      Aterms ← collectDualJacobians_eq key graph rest;
      Ok ((eq_dualKey factor, transpose Ai) :: Aterms)
  end.

Fixpoint collectDualJacobians_ineq (key : Key) (graph : list LinearInequality)
    (ixs : list nat) : result (list (Key * Matrix)) :=
  match ixs with
  | [] => Ok []
  | factorIx :: rest =>
      factor ← of_option OutOfRange (graph !! factorIx);
      if active factor then
        Ai ← find_block key (terms factor);
        Aterms ← collectDualJacobians_ineq key graph rest;
        Ok ((dualKey factor, transpose [Ai]) :: Aterms)
      else collectDualJacobians_ineq key graph rest
  end.

(** The sum of the cost gradients at [key], QPSolver.cpp:65-71. *)
Fixpoint sum_gradients (key : Key) (delta : VectorValues) (ixs : list nat)
    (b : Vector) : result Vector :=
  match ixs with
  | [] => Ok b
  | factorIx :: rest =>
      factor ← of_option OutOfRange (cost qp_ !! factorIx);
      g ← gradient factor key delta;
      b' ← vec_add b g;
      sum_gradients key delta rest b'
  end.

(** QPSolver.cpp:52-77. *)
Definition createDualFactor (key : Key) (workingSet : list LinearInequality)
    (delta : VectorValues) : result JacobianFactor :=
  Aterms ← collectDualJacobians_eq key (equalities qp_)
              (default [] (equalityVariableIndex_ !! key));
  AtermsInequalities ← collectDualJacobians_ineq key workingSet
              (default [] (inequalityVariableIndex_ !! key));
  let Aterms := Aterms ++ AtermsInequalities in
  if (0 <? length Aterms)%nat then
    d ← vv_at delta key;
    b ← sum_gradients key delta (default [] (costVariableIndex_ !! key))
           (zero (length d));
    Ok (mkJacobianFactor Aterms b)
  else Ok emptyJacobianFactor.

(** QPSolver.cpp:80-90. *)
Fixpoint buildDualGraph_from (keys : list Key)
    (workingSet : list LinearInequality) (delta : VectorValues)
    : result (list (GaussianFactor Cost)) :=
  match keys with
  | [] => Ok []
  | key :: rest =>
      dualFactor ← createDualFactor key workingSet delta;
      dualGraph ← buildDualGraph_from rest workingSet delta;
      if negb (jac_empty dualFactor)
      then Ok (JacobianTerm dualFactor :: dualGraph)
      else Ok dualGraph
  end.

Definition buildDualGraph (workingSet : list LinearInequality)
    (delta : VectorValues) : result (list (GaussianFactor Cost)) :=
  buildDualGraph_from constrainedKeys_ workingSet delta.

(** QPSolver.cpp:169-228.  The working set of the new state is a copy of
    the vector of references; the flag is flipped in the object the
    reference points to. *)
Definition iterate (state : QPState) (σ : Store) : result (QPState * Store) :=
  ws ← readGraph σ (workingSet state);
  newValues ← solveWithCurrentWorkingSet ws;
  if vv_equals newValues (values state) tol7 then
    dualGraph ← buildDualGraph ws newValues;
    duals' ← optimizeGraph dualGraph;
    leavingFactor ← identifyLeavingConstraint ws duals';
    if (leavingFactor <? 0)%Z then
      Ok (mkQPState newValues duals' (workingSet state) true
            (iterations state + 1), σ)
    else
      let newWorkingSet := workingSet state in
      l ← graph_at newWorkingSet leavingFactor;
      σ' ← inactivate_at σ l;
      Ok (mkQPState newValues duals' newWorkingSet false
            (iterations state + 1), σ')
  else
    p ← vv_sub newValues (values state);
    '(alpha, factorIx) ← computeStepSize ws (values state) p;
    let newWorkingSet := workingSet state in
    σ' ← (if (0 <=? factorIx)%Z
          then l ← graph_at newWorkingSet factorIx; activate_at σ l
          else Ok σ);
    newValues' ← vv_add (values state) (vv_scale alpha p);
    Ok (mkQPState newValues' (duals state) newWorkingSet false
          (iterations state + 1), σ').

(** QPSolver.cpp:231-261.  Every constraint is copied into a fresh
    object, flagged, and its reference pushed on the working set. *)
Fixpoint identifyActiveConstraints (inequalities : list LinearInequality)
    (initialValues duals : VectorValues) (useWarmStart : bool) (σ : Store)
    : result (InequalityFactorGraph * Store) :=
  match inequalities with
  | [] => Ok ([], σ)
  | factor :: rest =>
      let '(workingFactor, σ0) := new_LinearInequality σ factor in
      wf ← deref σ0 workingFactor;
      σ1 ← (if useWarmStart && vv_exists duals (dualKey wf)
            then activate_at σ0 workingFactor
            else if useWarmStart && (0 <? vv_size duals)%nat
            then inactivate_at σ0 workingFactor
            else
              err ← error wf initialValues;
              if Qlt_bool 0 err then Raise InfeasibleInitialValues
              else if Qlt_bool (Qabs err) tol7
              then activate_at σ0 workingFactor
              else inactivate_at σ0 workingFactor);
      '(workingSet, σ2) ← identifyActiveConstraints rest initialValues duals
                            useWarmStart σ1;
      Ok (workingFactor :: workingSet, σ2)
  end.

(** The main loop of [optimize], QPSolver.cpp:273-275, run for at most
    [fuel] iterations; [None] when the loop has not ended by then. *)
Fixpoint main_loop (fuel : nat) (state : QPState) (σ : Store)
    : option (result (QPState * Store)) :=
  if converged state then Some (Ok (state, σ))
  else
    match fuel with
    | O => None
    | S fuel' =>
        match iterate state σ with
        | Ok (state', σ') => main_loop fuel' state' σ'
        | Raise e => Some (Raise e)
        end
    end.

(** QPSolver.cpp:264-278. *)
Definition optimize (fuel : nat) (initialValues initialDuals : VectorValues)
    (useWarmStart : bool) (σ : Store)
    : option (result (VectorValues * VectorValues * Store)) :=
  match identifyActiveConstraints (inequalities qp_) initialValues initialDuals
          useWarmStart σ with
  | Raise e => Some (Raise e)
  | Ok (workingSet, σ0) =>
      match main_loop fuel
              (mkQPState initialValues initialDuals workingSet false 0) σ0 with
      | None => None
      | Some (Raise e) => Some (Raise e)
      | Some (Ok (state, σ')) => Some (Ok (values state, duals state, σ'))
      end
  end.

End Solver.

(** ** A linear solver for separable one-dimensional problems

    An instance of the collaborators, used to run the solver on concrete
    problems: every variable is a scalar, every term touches one variable.
    A cost term is [(x_k - c)^2 / 2]; a constraint used as an equality is
    the row [a x_k = b]; a dual factor is the least-squares row [a l = b]. *)
Module Scalar.

Record ScalarCost : Type := mkScalarCost {
  sc_key : Key;
  sc_target : Q
}.

Record Row : Type := mkRow {
  row_key : Key;
  row_a : Q;
  row_b : Q;
  row_hard : bool
}.

Definition row_of (f : GaussianFactor ScalarCost) : result Row :=
  match f with
  | CostTerm c => Ok (mkRow (sc_key c) 1 (sc_target c) false)
  | EqualityTerm e =>
      match eq_terms e, eq_b e with
      | [(k, [[a]])], [b] => Ok (mkRow k a b true)
      | _, _ => Raise SolverFailure
      end
  | InequalityTerm f =>
      match terms f with
      | [(k, [a])] => Ok (mkRow k a (getb f) true)
      | _ => Raise SolverFailure
      end
  | JacobianTerm j =>
      match jac_terms j, jac_b j with
      | [(k, [[a]])], [b] => Ok (mkRow k a b false)
      | _, _ => Raise SolverFailure
      end
  end.

Definition sum (l : list Q) : Q := foldr Qplus 0 l.

(** The value of variable [k]: fixed by its first hard row, which the
    other hard rows must agree with; else the least-squares value of its
    soft rows. *)
Definition solve_key (rows : list Row) (k : Key) : result Q :=
  let mine := filter (fun r => row_key r = k) rows in
  let hard := filter (fun r => row_hard r = true) mine in
  match hard with
  | r :: _ =>
      if Qeq_bool (row_a r) 0 then Raise SolverFailure
      else
        let x := Qred (row_b r / row_a r) in
        if forallb (fun r' => Qeq_bool (row_a r' * x) (row_b r')) hard
        then Ok x
        else Raise SolverFailure
  | [] =>
      let s2 := sum ((fun r => row_a r * row_a r) <$> mine) in
      if Qeq_bool s2 0 then Raise SolverFailure
      else Ok (Qred (sum ((fun r => row_a r * row_b r) <$> mine) / s2))
  end.

Fixpoint solve_keys (rows : list Row) (ks : list Key) : result VectorValues :=
  match ks with
  | [] => Ok ∅
  | k :: ks' =>
      x ← solve_key rows k;
      sol ← solve_keys rows ks';
      Ok (<[k := [x]]> sol)
  end.

Definition scalar_optimize (graph : list (GaussianFactor ScalarCost))
    : result VectorValues :=
  rows ← mapM row_of graph;
  solve_keys rows (row_key <$> rows).

Definition scalar_gradient (c : ScalarCost) (key : Key) (x : VectorValues)
    : result Vector :=
  if decide (key = sc_key c) then
    v ← vv_at x key;
    x0 ← first_component v;
    Ok [x0 - sc_target c]
  else Raise InvalidArgument.

#[global] Instance backend : LinearBackend := {|
  Cost := ScalarCost;
  costKeys := fun c => [sc_key c];
  gradient := scalar_gradient;
  optimizeGraph := scalar_optimize
|}.

(** One variable [x], key 0; a single inequality [a x <= b] with dual
    key 1; the cost [(x - c)^2 / 2]. *)
Definition bound (a b : Q) : LinearInequality :=
  mkLinearInequality [(0%N, [a])] b 1%N false.

Definition problem (c a b : Q) : QP :=
  mkQP [mkScalarCost 0%N c] [] [bound a b].

Definition point (x : Q) : VectorValues := {[ 0%N := [x] ]}.

End Scalar.

(** ** Concrete problems

    One variable, one inequality, run with the solver of [Scalar].  A run
    on a concrete problem is in the arithmetic [exact] unless it names
    [binary64]. *)
Module Examples.
Import Scalar.

(** Minimise [(x - 10)^2 / 2] under [x <= 5], from [x = 0]: the step is
    blocked half way. *)
Definition blocked_qp : QP := problem 10 1 5.
Definition blocked_store : Store := [bound 1 5].
Definition blocked_state : QPState := mkQPState (point 0) ∅ [0%nat] false 0.

(** Minimise [(x + 10)^2 / 2] under [x <= 5e-8], from [x = 0]: the cold
    start activates the constraint, which then leaves. *)
Definition tight : Q := 5 # 100000000.
Definition tight_qp : QP := problem (-10) 1 tight.
Definition tight_store : Store := [activate (bound 1 tight)].
Definition tight_state : QPState := mkQPState (point 0) ∅ [0%nat] false 0.
Definition tight_duals : VectorValues := {[ 1%N := [200000001 # 20000000] ]}.


(** Minimise [(x - 5)^2 / 2] under [x <= 5], from [x = 0]: the minimum
    lies on the bound. *)
Definition touching_qp : QP := problem 5 1 5.

End Examples.

(** Further concrete inputs. *)
Module Inputs.
Import Scalar.

(** Three bounds on [x]: [x <= 5], [2 x <= 10] and [x <= 50]; from [x = 0]
    along [p = 10] the first two block at the same step length. *)
Definition three_bounds : list LinearInequality :=
  [bound 1 5; bound 2 10; bound 1 50].

(** The blocked problem at its solution [x = 5], the constraint active. *)
Definition solved_state : QPState := mkQPState (point 5) ∅ [0%nat] false 0.
Definition solved_store : Store := [activate (bound 1 5)].

(** The multiplier [-5] for the dual key [1]. *)
Definition minus_five : VectorValues := {[ 1%N := [-5] ]}.

(** The blocked problem after its first step, which stops on the bound. *)
Definition stepped_state : QPState :=
  mkQPState (point (50 # 10)) ∅ [0%nat] false 1.

(** The blocked problem after its last iteration. *)
Definition final_state : QPState :=
  mkQPState (point 5) minus_five [0%nat] true 2.

Definition third : Q := round_binary64 (1 # 3).

(** [3 x <= 1] and [x <= fl(1/3)]: from [x = 0] along [p = 1] the two
    ratios are the same [double]; as real numbers the second is smaller. *)
Definition thirds : list LinearInequality := [bound 3 1; bound 1 third].

End Inputs.

(** * Vocabulary of the properties *)

(** No operation of the arithmetic rounds. *)
Definition exact_arithmetic (A : Arith) : Prop :=
  (forall x y, fadd x y == x + y) /\ (forall x y, fsub x y == x - y) /\
  (forall x y, fmul x y == x * y) /\ (forall x y, fdiv x y == x / y).


Section Vocabulary.
Context {A : Arith}.

(** The multiplier [lambdas.at(factor->dualKey())[0]] of a constraint. *)
Definition multiplier (lambdas : VectorValues) (f : LinearInequality) : result Q :=
  v ← vv_at lambdas (dualKey f);
  first_component v.

(** [i] is the first active constraint of [ws] whose multiplier [l] is the
    largest one. *)
Definition first_largest (lambdas : VectorValues) (ws : list LinearInequality)
    (i : nat) (l : Q) : Prop :=
  exists f, ws !! i = Some f /\ active f = true /\ multiplier lambdas f = Ok l /\
    forall j g m, ws !! j = Some g -> active g = true ->
      multiplier lambdas g = Ok m -> m <= l /\ ((j < i)%nat -> m < l).

(** No active constraint of [ws] has a multiplier above [l]. *)
Definition none_above (lambdas : VectorValues) (ws : list LinearInequality)
    (l : Q) : Prop :=
  forall j g m, ws !! j = Some g -> active g = true ->
    multiplier lambdas g = Ok m -> m <= l.

(** The row products of every inactive constraint of [ws] are defined at
    the point [xk] and along the direction [p]. *)
Definition rows_defined (ws : list LinearInequality) (xk p : VectorValues) : Prop :=
  forall f, f ∈ ws -> active f = false ->
    (exists aTp, dotProductRow f p = Ok aTp) /\ (exists aTx, dotProductRow f xk = Ok aTx).

(** Constraint [j] of [ws] is inactive and rises along [p], and [alpha]
    is the ratio [(b - a'xk) / (a'p)] the source computes for it. *)
Definition blocks_at (ws : list LinearInequality) (xk p : VectorValues)
    (j : nat) (alpha : Q) : Prop :=
  exists f aTp aTx, ws !! j = Some f /\ active f = false /\
    dotProductRow f p = Ok aTp /\ 0 < aTp /\ dotProductRow f xk = Ok aTx /\
    alpha = fdiv (fsub (getb f) aTx) aTp.



(** The flag [identifyActiveConstraints] gives a copy of [factor]
    (QPSolver.cpp:237-256), or the failure it raises there. *)
Definition initial_flag (initialValues duals : VectorValues)
    (useWarmStart : bool) (factor : LinearInequality) : result bool :=
  if useWarmStart && vv_exists duals (dualKey factor) then Ok true
  else if useWarmStart && (0 <? vv_size duals)%nat then Ok false
  else
    err ← error factor initialValues;
    if Qlt_bool 0 err then Raise InfeasibleInitialValues
    else Ok (Qlt_bool (Qabs err) tol7).

Definition set_flag (b : bool) (f : LinearInequality) : LinearInequality :=
  if b then activate f else inactivate f.





(** Two constraint objects that differ at most in their activation flag. *)
Definition same_rows (f g : LinearInequality) : Prop :=
  terms f = terms g /\ getb f = getb g /\ dualKey f = dualKey g.

(** The working set of a run: the references never change and the
    constraints they point to keep the rows of the problem. *)
Definition run_invariant (ineqs : list LinearInequality)
    (refs : InequalityFactorGraph) (state : QPState) (σ : Store) : Prop :=
  workingSet state = refs /\
  exists ws, readGraph σ refs = Ok ws /\ Forall2 same_rows ws ineqs.

(** The variables of a term and of a graph. *)
Definition factor_keys {B : LinearBackend} (f : GaussianFactor Cost) : list Key :=
  match f with
  | CostTerm c => costKeys c
  | EqualityTerm e => fst <$> eq_terms e
  | InequalityTerm f => fst <$> terms f
  | JacobianTerm j => fst <$> jac_terms j
  end.

Definition graph_keys {B : LinearBackend} (g : list (GaussianFactor Cost))
    : list Key :=
  concat (factor_keys <$> g).

(** The linear solve returns one vector for each variable of the graph it
    is given, and for no other. *)
Definition solves_graph_variables (B : LinearBackend) : Prop :=
  forall (g : list (GaussianFactor Cost)) (sol : VectorValues) (k : Key),
    optimizeGraph g = Ok sol -> (is_Some (sol !! k) <-> k ∈ graph_keys g).

(** The dual key of a constraint is its own: no two inequalities and no
    inequality and equality share one; every inequality touches a variable. *)
Definition dual_keys_unique {B : LinearBackend} (qp : QP) : Prop :=
  NoDup (dualKey <$> inequalities qp) /\
  (forall e f, e ∈ equalities qp -> f ∈ inequalities qp ->
     eq_dualKey e <> dualKey f) /\
  (forall f, f ∈ inequalities qp -> terms f <> []).

(** Constraint [i] is the first of [ws] whose ratio [alpha] is the least
    of the ratios computed. *)
Definition first_blocking (ws : list LinearInequality) (xk p : VectorValues)
    (i : nat) (alpha : Q) : Prop :=
  blocks_at ws xk p i alpha /\
  forall j a, blocks_at ws xk p j a -> alpha <= a /\ ((j < i)%nat -> alpha < a).

(** [calls qp n (state, σ) (state', σ')]: the loop of [optimize] leads from
    the first state to the second by [n] calls of [iterate], each from a
    state that is not converged. *)
Inductive calls {B : LinearBackend} (qp : QP)
    : nat -> QPState * Store -> QPState * Store -> Prop :=
  | calls_none (s : QPState * Store) : calls qp 0 s s
  | calls_next (n : nat) (state state1 : QPState) (σ σ1 : Store)
        (s : QPState * Store) :
      converged state = false ->
      iterate qp state σ = Ok (state1, σ1) ->
      calls qp n (state1, σ1) s ->
      calls qp (S n) (state, σ) s.

End Vocabulary.

(** * Properties *)

(** ** Basic facts *)

Lemma Qlt_bool_iff (x y : Q) : Qlt_bool x y = true <-> x < y.
Proof.
  unfold Qlt_bool. rewrite negb_true_iff. split; intros H.
  - apply Qnot_le_lt. intros Hle. apply Qle_bool_iff in Hle. congruence.
  - destruct (Qle_bool y x) eqn:E; [|done].
    apply Qle_bool_iff in E. lra.
Qed.

Lemma Qlt_bool_false (x y : Q) : Qlt_bool x y = false <-> y <= x.
Proof.
  unfold Qlt_bool. rewrite negb_false_iff. apply Qle_bool_iff.
Qed.

Lemma Qle_bool_false (x y : Q) : Qle_bool x y = false <-> y < x.
Proof.
  split; intros H.
  - apply Qnot_le_lt. intros Hle. apply Qle_bool_iff in Hle. congruence.
  - destruct (Qle_bool x y) eqn:E; [|done]. apply Qle_bool_iff in E. lra.
Qed.

Lemma bind_Ok {A C} (m : result A) (k : A -> result C) (c : C) :
  m ≫= k = Ok c <-> exists a, m = Ok a /\ k a = Ok c.
Proof.
  destruct m as [a|e]; simpl; split.
  - intros H. by exists a.
  - by intros (a' & [= <-] & H).
  - done.
  - by intros (a' & [=] & _).
Qed.

(** Splits a successful sequence of calls into its successful steps. *)
Ltac inv_Ok :=
  repeat match goal with
  | H : _ ≫= _ = Ok _ |- _ =>
      let a := fresh "a" in
      let Ha := fresh "Ha" in
      apply bind_Ok in H; destruct H as (a & Ha & H)
  | H : Ok _ = Ok _ |- _ => injection H as H; subst
  | H : Raise _ = Ok _ |- _ => discriminate H
  | H : of_option _ ?o = Ok _ |- _ =>
      let E := fresh "E" in destruct o eqn:E; simpl in H
  end.

Section LeavingConstraint.
Variable lambdas : VectorValues.

Lemma identifyLeavingConstraint_from_spec ws :
  forall n worst maxLambda,
    (forall f, f ∈ ws -> active f = true -> exists l, multiplier lambdas f = Ok l) ->
    exists ix, identifyLeavingConstraint_from ws lambdas n worst maxLambda = Ok ix /\
      ((ix = worst /\ none_above lambdas ws maxLambda) \/
       (exists i l, ix = Z.of_nat (n + i) /\ maxLambda < l /\ first_largest lambdas ws i l)).
Proof.
  induction ws as [|f ws IH]; intros n worst maxLambda Hdef; simpl.
  - exists worst. split; [done|]. left. split; [done|].
    intros j g m Hj. by rewrite lookup_nil in Hj.
  - assert (Hdef' : forall g, g ∈ ws -> active g = true ->
              exists l, multiplier lambdas g = Ok l).
    { intros g Hg. apply Hdef. by right. }
    destruct (active f) eqn:Hact.
    + destruct (Hdef f) as [l0 Hl0]; [by left|done|].
      pose proof Hl0 as Hl0'. unfold multiplier in Hl0'.
      apply bind_Ok in Hl0'. destruct Hl0' as (v & Hv & Hfc).
      rewrite Hv. simpl. rewrite Hfc. simpl.
      destruct (Qlt_bool maxLambda l0) eqn:Hcmp.
      * apply Qlt_bool_iff in Hcmp.
        destruct (IH (S n) (Z.of_nat n) l0 Hdef') as (ix & Hix & Hspec).
        exists ix. split; [done|]. right.
        destruct Hspec as [[-> Hnone] | (i & l & -> & Hlt & g & Hg & Hga & Hgm & Hmax)].
        -- exists 0%nat, l0. split; [f_equal; lia|]. split; [done|].
           exists f. repeat split; try done.
           ++ destruct j as [|j]; simpl in *.
              ** assert (m = l0) by congruence. subst. lra.
              ** by eapply Hnone.
           ++ lia.
        -- exists (S i), l. split; [f_equal; lia|]. split; [lra|].
           exists g. repeat split; try done.
           ++ destruct j as [|j]; simpl in *.
              ** assert (m = l0) by congruence. subst. lra.
              ** by eapply Hmax.
           ++ intros Hji. destruct j as [|j]; simpl in *.
              ** assert (m = l0) by congruence. subst. lra.
              ** eapply Hmax; [done..|lia].
      * apply Qlt_bool_false in Hcmp.
        destruct (IH (S n) worst maxLambda Hdef') as (ix & Hix & Hspec).
        exists ix. split; [done|].
        destruct Hspec as [[-> Hnone] | (i & l & -> & Hlt & g & Hg & Hga & Hgm & Hmax)].
        -- left. split; [done|]. intros [|j] g m Hj Hg Hm; simpl in *.
           ++ assert (m = l0) by congruence. subst. lra.
           ++ by eapply Hnone.
        -- right. exists (S i), l. split; [f_equal; lia|]. split; [done|].
           exists g. repeat split; try done.
           ++ destruct j as [|j]; simpl in *.
              ** assert (m = l0) by congruence. subst. lra.
              ** by eapply Hmax.
           ++ intros Hji. destruct j as [|j]; simpl in *.
              ** assert (m = l0) by congruence. subst. lra.
              ** eapply Hmax; [done..|lia].
    + destruct (IH (S n) worst maxLambda Hdef') as (ix & Hix & Hspec).
      exists ix. split; [done|].
      destruct Hspec as [[-> Hnone] | (i & l & -> & Hlt & g & Hg & Hga & Hgm & Hmax)].
      * left. split; [done|]. intros [|j] g m Hj Hg Hm; simpl in *.
        -- congruence.
        -- by eapply Hnone.
      * right. exists (S i), l. split; [f_equal; lia|]. split; [done|].
        exists g. repeat split; try done.
        -- destruct j as [|j]; simpl in *; [congruence|by eapply Hmax].
        -- intros Hji. destruct j as [|j]; simpl in *; [congruence|].
           eapply Hmax; [done..|lia].
Qed.

End LeavingConstraint.

(** C4.  [identifyLeavingConstraint] reads the multiplier of the active
    constraints only (first component of the dual vector at the dual key),
    and returns the index of the first constraint that has the largest
    multiplier when that multiplier is strictly positive, and [-1] when no
    active constraint has a strictly positive multiplier. *)
Theorem identifyLeavingConstraint_largest_positive
    (ws : list LinearInequality) (lambdas : VectorValues) :
  (forall f, f ∈ ws -> active f = true -> exists l, multiplier lambdas f = Ok l) ->
  exists ix, identifyLeavingConstraint ws lambdas = Ok ix /\
    ((ix = (-1)%Z /\ none_above lambdas ws 0) \/
     (exists i l, ix = Z.of_nat i /\ 0 < l /\ first_largest lambdas ws i l)).
Proof.
  intros Hdef.
  destruct (identifyLeavingConstraint_from_spec lambdas ws 0 (-1)%Z 0 Hdef)
    as (ix & Hix & Hspec).
  exists ix. split; [done|].
  destruct Hspec as [H | (i & l & -> & Hl & H)]; [by left|].
  right. by exists i, l.
Qed.

Section StepSize.
Context {A : Arith}.
Variables xk p : VectorValues.

Lemma computeStepSize_from_spec ws :
  forall n minAlpha closest,
    rows_defined ws xk p ->
    exists alpha ix,
      computeStepSize_from ws xk p n minAlpha closest = Ok (alpha, ix) /\
      alpha <= minAlpha /\
      (forall j a, blocks_at ws xk p j a -> alpha <= a) /\
      ((alpha = minAlpha /\ ix = closest) \/
       (exists j, ix = Z.of_nat (n + j) /\ blocks_at ws xk p j alpha /\
                  alpha < minAlpha)).
Proof.
  induction ws as [|f ws IH]; intros n minAlpha closest Hdef; simpl.
  - exists minAlpha, closest. split; [done|]. split; [lra|]. split.
    + intros j a (g & ? & ? & Hj & _). by rewrite lookup_nil in Hj.
    + by left.
  - assert (Hdef' : rows_defined ws xk p).
    { intros g Hg. apply Hdef. by right. }
    assert (Hshift : forall j a, blocks_at ws xk p j a ->
              blocks_at (f :: ws) xk p (S j) a).
    { intros j a (g & aTp & aTx & Hj & H). by exists g, aTp, aTx. }
    destruct (active f) eqn:Hact; simpl.
    + destruct (IH (S n) minAlpha closest Hdef') as (alpha & ix & Hrun & Hle & Hmin & Hsrc).
      exists alpha, ix. split; [done|]. split; [done|]. split.
      * intros [|j] a (g & aTp & aTx & Hj & Hg & H); simpl in Hj.
        -- congruence.
        -- apply (Hmin j). by exists g, aTp, aTx.
      * destruct Hsrc as [H | (j & -> & Hb & Hlt)]; [by left|].
        right. exists (S j). split; [f_equal; lia|]. split; [by apply Hshift|done].
    + destruct (Hdef f) as [[aTp HaTp] [aTx HaTx]]; [by left|done|].
      rewrite HaTp. simpl.
      destruct (Qle_bool aTp 0) eqn:Hsign.
      * apply Qle_bool_iff in Hsign.
        destruct (IH (S n) minAlpha closest Hdef') as (alpha & ix & Hrun & Hle & Hmin & Hsrc).
        exists alpha, ix. split; [done|]. split; [done|]. split.
        -- intros [|j] a (g & aTp' & aTx' & Hj & Hg & Hp & Hpos & H); simpl in Hj.
           ++ injection Hj as <-. rewrite HaTp in Hp. injection Hp as <-. lra.
           ++ apply (Hmin j). by exists g, aTp', aTx'.
        -- destruct Hsrc as [H | (j & -> & Hb & Hlt)]; [by left|].
           right. exists (S j). split; [f_equal; lia|]. split; [by apply Hshift|done].
      * apply Qle_bool_false in Hsign. rewrite HaTx. simpl.
        set (r := fdiv (fsub (getb f) aTx) aTp).
        assert (Hhere : blocks_at (f :: ws) xk p 0 r).
        { by exists f, aTp, aTx. }
        destruct (Qlt_bool r minAlpha) eqn:Hcmp.
        -- apply Qlt_bool_iff in Hcmp.
           destruct (IH (S n) r (Z.of_nat n) Hdef')
             as (alpha & ix & Hrun & Hle & Hmin & Hsrc).
           exists alpha, ix. split; [done|]. split; [lra|]. split.
           ++ intros [|j] a (g & aTp' & aTx' & Hj & Hg & Hp & Hpos & Hx & ->); simpl in Hj.
              ** injection Hj as <-. rewrite HaTp in Hp. injection Hp as <-.
                 rewrite HaTx in Hx. injection Hx as <-. done.
              ** apply (Hmin j). by exists g, aTp', aTx'.
           ++ right. destruct Hsrc as [[-> ->] | (j & -> & Hb & Hlt)].
              ** exists 0%nat. split; [f_equal; lia|]. done.
              ** exists (S j). split; [f_equal; lia|]. split; [by apply Hshift|lra].
        -- apply Qlt_bool_false in Hcmp.
           destruct (IH (S n) minAlpha closest Hdef')
             as (alpha & ix & Hrun & Hle & Hmin & Hsrc).
           exists alpha, ix. split; [done|]. split; [done|]. split.
           ++ intros [|j] a (g & aTp' & aTx' & Hj & Hg & Hp & Hpos & Hx & ->); simpl in Hj.
              ** injection Hj as <-. rewrite HaTp in Hp. injection Hp as <-.
                 rewrite HaTx in Hx. injection Hx as <-. fold r. lra.
              ** apply (Hmin j). by exists g, aTp', aTx'.
           ++ destruct Hsrc as [H | (j & -> & Hb & Hlt)]; [by left|].
              right. exists (S j). split; [f_equal; lia|]. split; [by apply Hshift|done].
Qed.

(** The step length is the smaller of [1] and the least ratio computed. *)
Lemma computeStepSize_spec ws :
  rows_defined ws xk p ->
  exists alpha ix,
    computeStepSize ws xk p = Ok (alpha, ix) /\
    alpha <= 1 /\
    (forall j a, blocks_at ws xk p j a -> alpha <= a) /\
    ((alpha = 1 /\ ix = (-1)%Z) \/
     (exists j, ix = Z.of_nat j /\ blocks_at ws xk p j alpha /\ alpha < 1)).
Proof.
  intros Hdef.
  destruct (computeStepSize_from_spec ws 0 1 (-1)%Z Hdef)
    as (alpha & ix & Hrun & Hle & Hmin & Hsrc).
  exists alpha, ix. repeat split; try done.
Qed.

End StepSize.

Section RatioTest.
Context {A : Arith}.



(** Without rounding the row product is linear along a step. *)
Lemma dot_sum_linear (alpha : Q) (aj : Vector) :
  exact_arithmetic A ->
  forall xv pv : Vector,
    length aj = length xv -> length aj = length pv ->
    foldr fadd 0 (zip_with fmul aj (zip_with fadd xv (fmul alpha <$> pv)))
    == foldr fadd 0 (zip_with fmul aj xv)
       + alpha * foldr fadd 0 (zip_with fmul aj pv).
Proof.
  intros (Hadd & _ & Hmul & _).
  induction aj as [|a aj IH]; intros [|x xv] [|q pv] Hx Hp; simpl in *; try lia.
  - ring.
  - rewrite !Hadd, !Hmul, !Hadd, !Hmul, IH by lia. ring.
Qed.

Lemma dotProductRow_from_linear (alpha : Q) (x p y : VectorValues) ts :
  exact_arithmetic A ->
  vv_add x (vv_scale alpha p) = Ok y ->
  forall accx accp accy rx rp,
    accy == accx + alpha * accp ->
    dotProductRow_from ts x accx = Ok rx ->
    dotProductRow_from ts p accp = Ok rp ->
    exists ry, dotProductRow_from ts y accy = Ok ry /\ ry == rx + alpha * rp.
Proof.
  intros Hexact Hy. unfold vv_add in Hy.
  destruct (hasSameStructure _ _); [|done]. injection Hy as <-.
  induction ts as [|[k aj] ts IH]; intros accx accp accy rx rp Hacc Hx Hp; simpl in *.
  - injection Hx as <-. injection Hp as <-. by exists accy.
  - unfold vv_at, dot in *.
    rewrite map_lookup_zip_with. unfold vv_scale. rewrite lookup_fmap.
    destruct (x !! k) as [xv|]; [|done]. destruct (p !! k) as [pv|]; [|done].
    simpl in *.
    destruct (decide (length aj = length xv)) as [Hlx|]; [|done].
    destruct (decide (length aj = length pv)) as [Hlp|]; [|done].
    simpl in *.
    rewrite decide_True.
    2:{ rewrite length_zip_with, length_fmap. lia. }
    simpl. eapply IH; [|done..].
    pose proof Hexact as (Hadd & _). rewrite !Hadd.
    rewrite (dot_sum_linear alpha aj Hexact xv pv Hlx Hlp).
    rewrite Hacc. ring.
Qed.

Lemma dotProductRow_linear (alpha : Q) (f : LinearInequality)
    (x p y : VectorValues) (aTx aTp : Q) :
  exact_arithmetic A ->
  vv_add x (vv_scale alpha p) = Ok y ->
  dotProductRow f x = Ok aTx ->
  dotProductRow f p = Ok aTp ->
  exists aTy, dotProductRow f y = Ok aTy /\ aTy == aTx + alpha * aTp.
Proof.
  intros Hexact Hy Hx Hp. unfold dotProductRow in *.
  eapply dotProductRow_from_linear; [done|done| |done..]. ring.
Qed.

Lemma forallb_pointwise {C} (f g : C -> bool) (l : list C) :
  (forall a, f a = g a) -> forallb f l = forallb g l.
Proof. intros Hfg. induction l as [|a l IH]; simpl; [done|]. by rewrite Hfg, IH. Qed.

Lemma hasSameStructure_scale (alpha : Q) (x p : VectorValues) :
  hasSameStructure x (vv_scale alpha p) = hasSameStructure x p.
Proof.
  unfold hasSameStructure, vv_scale. rewrite dom_fmap_L. f_equal.
  apply forallb_pointwise. intros [k v]. rewrite lookup_fmap.
  destruct (p !! k); simpl; [|done]. by rewrite length_fmap.
Qed.

(** A working set whose only inactive constraint is [f]. *)
Lemma single_inactive_lookup (pre post : list LinearInequality)
    (f g : LinearInequality) (j : nat) :
  Forall (fun h => active h = true) pre ->
  Forall (fun h => active h = true) post ->
  (pre ++ f :: post) !! j = Some g -> active g = false ->
  j = length pre /\ g = f.
Proof.
  intros Hpre Hpost Hj Hg.
  apply lookup_app_Some in Hj as [Hj | [Hlen Hj]].
  - apply list_elem_of_lookup_2 in Hj.
    rewrite Forall_forall in Hpre. apply Hpre in Hj. congruence.
  - destruct (j - length pre)%nat as [|m] eqn:Hm; simpl in Hj.
    + injection Hj as <-. split; [lia|done].
    + apply list_elem_of_lookup_2 in Hj.
      rewrite Forall_forall in Hpost. apply Hpost in Hj. congruence.
Qed.

(** C5, as the code has it.  With a single inactive constraint [f] that
    rises along [p], the step length is the ratio [(b - a'x) / (a'p)] the
    source computes when that ratio is below [1]; when the ratio is [1] or
    more the step length is capped at [1] and no constraint is reported.
    When the ratio is below [1] and no operation rounds, the new point
    meets the bound: [a'(x + alpha p) = b]. *)
Theorem computeStepSize_ratio_capped
    (pre post : list LinearInequality) (f : LinearInequality)
    (x p : VectorValues) (aTp aTx : Q) :
  Forall (fun h => active h = true) pre ->
  Forall (fun h => active h = true) post ->
  active f = false ->
  dotProductRow f p = Ok aTp ->
  dotProductRow f x = Ok aTx ->
  0 < aTp ->
  (fdiv (fsub (getb f) aTx) aTp < 1 ->
     computeStepSize (pre ++ f :: post) x p
       = Ok (fdiv (fsub (getb f) aTx) aTp, Z.of_nat (length pre))) /\
  (1 <= fdiv (fsub (getb f) aTx) aTp ->
     computeStepSize (pre ++ f :: post) x p = Ok (1, (-1)%Z)) /\
  (exact_arithmetic A ->
   hasSameStructure x p = true ->
   fdiv (fsub (getb f) aTx) aTp < 1 ->
     exists y aTy,
       vv_add x (vv_scale (fdiv (fsub (getb f) aTx) aTp) p) = Ok y /\
       dotProductRow f y = Ok aTy /\ aTy == getb f).
Proof.
  intros Hpre Hpost Hact Hp Hx Hpos.
  set (ws := pre ++ f :: post).
  set (r := fdiv (fsub (getb f) aTx) aTp).
  assert (Hdef : rows_defined ws x p).
  { intros g Hg Hga. apply list_elem_of_lookup_1 in Hg as [j Hj].
    destruct (single_inactive_lookup pre post f g j) as [_ ->]; eauto. }
  assert (Hblock : blocks_at ws x p (length pre) r).
  { exists f, aTp, aTx. repeat split; try done.
    unfold ws. by rewrite list_lookup_middle. }
  destruct (computeStepSize_spec x p ws Hdef) as (alpha & ix & Hrun & Hle & Hmin & Hsrc).
  pose proof (Hmin _ _ Hblock) as Hbound.
  assert (Hsrc' : (alpha = 1 /\ ix = (-1)%Z) \/
            (alpha = r /\ ix = Z.of_nat (length pre) /\ alpha < 1)).
  { destruct Hsrc as [H | (j & -> & (g & aTp' & aTx' & Hj & Hg & Hp' & _ & Hx' & ->) & Hlt)];
      [by left|right].
    destruct (single_inactive_lookup pre post f g j) as [-> ->]; try done.
    rewrite Hp in Hp'. injection Hp' as <-.
    rewrite Hx in Hx'. injection Hx' as <-. done. }
  split; [|split].
  - intros Hlt.
    destruct Hsrc' as [[-> _] | (-> & -> & _)]; [lra|done].
  - intros Hge.
    destruct Hsrc' as [[-> ->] | (-> & _ & Hlt)]; [done|lra].
  - intros Hexact Hstruct Hlt.
    assert (Hadd : exists y, vv_add x (vv_scale r p) = Ok y).
    { unfold vv_add. rewrite hasSameStructure_scale, Hstruct. eauto. }
    destruct Hadd as [y Hy].
    destruct (dotProductRow_linear _ f x p y aTx aTp Hexact Hy Hx Hp) as (aTy & HaTy & Heq).
    exists y, aTy. repeat split; try done.
    rewrite Heq. unfold r.
    destruct Hexact as (_ & Hsub & _ & Hdiv). rewrite Hdiv, Hsub. field. lra.
Qed.

Lemma blocks_at_cons_S (f : LinearInequality) (ws : list LinearInequality)
    (xk p : VectorValues) (j : nat) (a : Q) :
  blocks_at (f :: ws) xk p (S j) a <-> blocks_at ws xk p j a.
Proof. done. Qed.

Lemma blocks_at_cons_0 (f : LinearInequality) (ws : list LinearInequality)
    (xk p : VectorValues) (a : Q) :
  blocks_at (f :: ws) xk p 0 a <->
  active f = false /\
  exists aTp aTx, dotProductRow f p = Ok aTp /\ 0 < aTp /\
    dotProductRow f xk = Ok aTx /\ a = fdiv (fsub (getb f) aTx) aTp.
Proof.
  split.
  - intros (g & aTp & aTx & [= <-] & Hact & H). split; [done|]. by exists aTp, aTx.
  - intros (Hact & aTp & aTx & H). by exists f, aTp, aTx.
Qed.

(** A returned index that is not the one the scan started from is the index
    of a constraint that blocks at the returned step length. *)
Lemma computeStepSize_from_inv (xk p : VectorValues) ws :
  forall n minAlpha closest alpha ix,
    computeStepSize_from ws xk p n minAlpha closest = Ok (alpha, ix) ->
    (alpha = minAlpha /\ ix = closest) \/
    exists j, ix = Z.of_nat (n + j) /\ blocks_at ws xk p j alpha.
Proof.
  induction ws as [|f ws IH]; intros n minAlpha closest alpha ix Hrun; simpl in Hrun.
  - left. by injection Hrun as <- <-.
  - assert (Hshift : forall m c,
              computeStepSize_from ws xk p (S n) m c = Ok (alpha, ix) ->
              (alpha = m /\ ix = c) \/
              exists j, ix = Z.of_nat (n + j) /\ blocks_at (f :: ws) xk p j alpha).
    { intros m c Hm. destruct (IH _ _ _ _ _ Hm) as [H | (j & -> & Hb)]; [by left|].
      right. exists (S j). split; [f_equal; lia|done]. }
    destruct (active f) eqn:Hact; simpl in Hrun; [by apply Hshift|].
    destruct (dotProductRow f p) as [aTp|] eqn:HaTp; simpl in Hrun; [|done].
    destruct (Qle_bool aTp 0) eqn:Hsign; [by apply Hshift|].
    apply Qle_bool_false in Hsign.
    destruct (dotProductRow f xk) as [aTx|] eqn:HaTx; simpl in Hrun; [|done].
    destruct (Qlt_bool (fdiv (fsub (getb f) aTx) aTp) minAlpha); [|by apply Hshift].
    destruct (Hshift _ _ Hrun) as [[-> ->] | H]; [|by right].
    right. exists 0%nat. split; [f_equal; lia|].
    apply blocks_at_cons_0. split; [done|]. by exists aTp, aTx.
Qed.

End RatioTest.

(** C5, as stated, fails: from [x = 0] along [p = 1] with the inactive
    constraint [x <= 5] the ratio is [5], the step length returned is [1],
    and [a'(x + 1 p) = 1], not [5]. *)
Lemma computeStepSize_ratio_counterexample :
  ~ (forall (f : LinearInequality) (x p y : VectorValues)
            (aTp aTy alpha : Q) (ix : Z),
        active f = false ->
        dotProductRow f p = Ok aTp -> 0 < aTp ->
        computeStepSize [f] x p = Ok (alpha, ix) ->
        vv_add x (vv_scale alpha p) = Ok y ->
        dotProductRow f y = Ok aTy ->
        aTy == getb f).
Proof.
  intros H.
  assert (Hbad : 0 + (1 * (0 + 1 * 1) + 0) == 5).
  { apply (H (Scalar.bound 1 5) (Scalar.point 0) (Scalar.point 1)
             {[ 0%N := [0 + 1 * 1] ]} (0 + (1 * 1 + 0)) _ 1 (-1)%Z).
    - reflexivity.
    - reflexivity.
    - reflexivity.
    - reflexivity.
    - reflexivity.
    - reflexivity. }
  vm_compute in Hbad. discriminate Hbad.
Qed.


(** ** The store *)

Lemma deref_new (σ : Store) (f : LinearInequality) :
  deref (σ ++ [f]) (length σ) = Ok f.
Proof. unfold deref. by rewrite list_lookup_middle. Qed.

Lemma activate_at_new (σ : Store) (f : LinearInequality) :
  activate_at (σ ++ [f]) (length σ) = Ok (σ ++ [activate f]).
Proof.
  unfold activate_at. rewrite deref_new. simpl. f_equal.
  rewrite insert_app_r_alt by lia. by rewrite Nat.sub_diag.
Qed.

Lemma inactivate_at_new (σ : Store) (f : LinearInequality) :
  inactivate_at (σ ++ [f]) (length σ) = Ok (σ ++ [inactivate f]).
Proof.
  unfold inactivate_at. rewrite deref_new. simpl. f_equal.
  rewrite insert_app_r_alt by lia. by rewrite Nat.sub_diag.
Qed.

Lemma deref_middle (σ ws : Store) (f : LinearInequality) :
  deref (σ ++ f :: ws) (length σ) = Ok f.
Proof. unfold deref. by rewrite list_lookup_middle. Qed.

Lemma deref_insert_ne (σ : Store) (l l0 : nat) (f' : LinearInequality) :
  l <> l0 -> deref (<[l := f']> σ) l0 = deref σ l0.
Proof. intros Hne. unfold deref. by rewrite list_lookup_insert_ne. Qed.

Lemma deref_insert_eq (σ : Store) (l : nat) (f f' : LinearInequality) :
  σ !! l = Some f -> deref (<[l := f']> σ) l = Ok f'.
Proof.
  intros Hl. unfold deref.
  rewrite list_lookup_insert_eq; [done|]. by eapply lookup_lt_Some.
Qed.

Section SolverProperties.
Context {A : Arith} {B : LinearBackend}.

(** ** Working-set construction *)

(** [identifyActiveConstraints] appends one flagged copy per constraint
    to the store and returns the references to the copies, in order. *)
Lemma identifyActiveConstraints_flags (x0 d : VectorValues) (w : bool)
    (ineqs : list LinearInequality) :
  forall σ : Store,
    identifyActiveConstraints ineqs x0 d w σ
    = (flags ← mapM (initial_flag x0 d w) ineqs;
       Ok (seq (length σ) (length ineqs), σ ++ zip_with set_flag flags ineqs)).
Proof.
  induction ineqs as [|f ineqs IH]; intros σ; simpl.
  - by rewrite app_nil_r.
  - rewrite deref_new. simpl. unfold initial_flag in *.
    destruct (w && vv_exists d (dualKey f)) eqn:E1; simpl.
    { rewrite activate_at_new. simpl. rewrite IH.
      destruct (mapM _ ineqs) as [flags|e]; simpl; [|done].
      rewrite length_app. simpl. rewrite Nat.add_1_r.
      by rewrite <- app_assoc. }
    destruct (w && (0 <? vv_size d)%nat) eqn:E2; simpl.
    { rewrite inactivate_at_new. simpl. rewrite IH.
      destruct (mapM _ ineqs) as [flags|e]; simpl; [|done].
      rewrite length_app. simpl. rewrite Nat.add_1_r.
      by rewrite <- app_assoc. }
    destruct (error f x0) as [err|e]; simpl; [|done].
    destruct (Qlt_bool 0 err); simpl; [done|].
    destruct (Qlt_bool (Qabs err) tol7); simpl.
    + rewrite activate_at_new. simpl. rewrite IH.
      destruct (mapM _ ineqs) as [flags|e]; simpl; [|done].
      rewrite length_app. simpl. rewrite Nat.add_1_r.
      by rewrite <- app_assoc.
    + rewrite inactivate_at_new. simpl. rewrite IH.
      destruct (mapM _ ineqs) as [flags|e]; simpl; [|done].
      rewrite length_app. simpl. rewrite Nat.add_1_r.
      by rewrite <- app_assoc.
Qed.

Lemma mapM_Ok_lookup {T C} (f : T -> result C) (l : list T) (k : list C) :
  mapM f l = Ok k ->
  length k = length l /\
  forall i a, l !! i = Some a -> exists c, k !! i = Some c /\ f a = Ok c.
Proof.
  revert k. induction l as [|a l IH]; intros k Hk; simpl in Hk.
  - injection Hk as <-. split; [done|]. intros i a Hi. by rewrite lookup_nil in Hi.
  - destruct (f a) as [c|e] eqn:Hc; simpl in Hk; [|done].
    destruct (mapM f l) as [k'|e] eqn:Hk'; simpl in Hk; [|done].
    injection Hk as <-.
    destruct (IH _ eq_refl) as [Hlen Hlook]. split; [simpl; lia|].
    intros [|i] a' Hi; simpl in Hi.
    + injection Hi as <-. by exists c.
    + by apply Hlook.
Qed.

Lemma mapM_cons {T C} (f : T -> result C) (a : T) (l : list T) :
  mapM f (a :: l) = (c ← f a; k ← mapM f l; Ok (c :: k)).
Proof. reflexivity. Qed.

Lemma initial_flag_cold (x0 d : VectorValues) (f : LinearInequality) (v : Q) :
  error f x0 = Ok v ->
  initial_flag x0 d false f
  = if Qlt_bool 0 v then Raise InfeasibleInitialValues
    else Ok (Qlt_bool (Qabs v) tol7).
Proof. intros Hv. unfold initial_flag. cbn [andb]. by rewrite Hv. Qed.

(** Without duals the warm-start flag has no effect on a flag. *)
Lemma initial_flag_not_warm (x0 d : VectorValues) (w : bool)
    (f : LinearInequality) :
  w = false \/ d = ∅ ->
  initial_flag x0 d w f = initial_flag x0 d false f.
Proof.
  intros [-> | ->]; [done|]. destruct w; [|done].
  unfold initial_flag, vv_exists, vv_size. rewrite lookup_empty, map_size_empty.
  rewrite bool_decide_eq_false_2; [done|]. by intros [? ?].
Qed.

(** With the initial point infeasible for one constraint and the
    violation of every constraint defined, the cold start raises. *)
Lemma mapM_initial_flag_infeasible (x0 d : VectorValues) (w : bool)
    (ineqs : list LinearInequality) :
  w = false \/ d = ∅ ->
  (forall f, f ∈ ineqs -> exists v, error f x0 = Ok v) ->
  (exists f v, f ∈ ineqs /\ error f x0 = Ok v /\ 0 < v) ->
  mapM (initial_flag x0 d w) ineqs = Raise InfeasibleInitialValues.
Proof.
  intros Hcold.
  induction ineqs as [|f ineqs IH]; intros Hdef (g & v & Hg & Hv & Hpos).
  - by apply elem_of_nil in Hg.
  - rewrite mapM_cons, (initial_flag_not_warm _ _ _ _ Hcold).
    destruct (Hdef f) as [v0 Hv0]; [by left|].
    rewrite (initial_flag_cold _ _ _ _ Hv0).
    destruct (Qlt_bool 0 v0) eqn:Hcmp; simpl; [done|].
    apply Qlt_bool_false in Hcmp.
    rewrite IH; [done| |].
    + intros h Hh. apply Hdef. by right.
    + apply elem_of_cons in Hg as [-> | Hg].
      * rewrite Hv0 in Hv. injection Hv as <-. lra.
      * by exists g, v.
Qed.

(** C2.  When the warm start is not in effect (the flag is off, or no
    duals are given), the violation of every inequality constraint is
    defined at the initial point and one of them is strictly positive, the
    working-set construction raises [InfeasibleInitialValues], and so does
    [optimize] whatever the number of iterations it is allowed: no
    iteration runs. *)
Theorem optimize_infeasible_initial_values (qp : QP) (x0 d : VectorValues)
    (w : bool) (σ : Store) :
  w = false \/ d = ∅ ->
  (forall f, f ∈ inequalities qp -> exists v, error f x0 = Ok v) ->
  (exists f v, f ∈ inequalities qp /\ error f x0 = Ok v /\ 0 < v) ->
  identifyActiveConstraints (inequalities qp) x0 d w σ
    = Raise InfeasibleInitialValues /\
  forall fuel, optimize qp fuel x0 d w σ = Some (Raise InfeasibleInitialValues).
Proof.
  intros Hcold Hdef Hpos.
  assert (Hraise : identifyActiveConstraints (inequalities qp) x0 d w σ
                   = Raise InfeasibleInitialValues).
  { rewrite identifyActiveConstraints_flags.
    by rewrite mapM_initial_flag_infeasible. }
  split; [done|]. intros fuel. unfold optimize. by rewrite Hraise.
Qed.

(** C7.  When the cold-start construction returns a working set, the
    violation [v] of every constraint is defined and not positive; the
    copy of the constraint is active when [|v| < 1e-7] and inactive when
    [v <= -1e-7]. *)
Theorem identifyActiveConstraints_cold_start_flags
    (ineqs : list LinearInequality) (x0 d : VectorValues) (σ σ' : Store)
    (ws : InequalityFactorGraph) :
  identifyActiveConstraints ineqs x0 d false σ = Ok (ws, σ') ->
  length ws = length ineqs /\
  forall i f, ineqs !! i = Some f ->
    exists v l g,
      error f x0 = Ok v /\ v <= 0 /\
      ws !! i = Some l /\ σ' !! l = Some g /\
      terms g = terms f /\ getb g = getb f /\ dualKey g = dualKey f /\
      (Qabs v < tol7 -> active g = true) /\
      (v <= - tol7 -> active g = false).
Proof.
  rewrite identifyActiveConstraints_flags. intros Hrun.
  destruct (mapM _ ineqs) as [flags|e] eqn:Hflags; simpl in Hrun; [|done].
  injection Hrun as <- <-.
  destruct (mapM_Ok_lookup _ _ _ Hflags) as [Hlen Hlook].
  split; [by rewrite length_seq|].
  intros i f Hi. destruct (Hlook i f Hi) as (c & Hc & Hflag).
  unfold initial_flag in Hflag. cbn [andb] in Hflag.
  destruct (error f x0) as [v|e] eqn:Hv; simpl in Hflag; [|done].
  destruct (Qlt_bool 0 v) eqn:Hsign; [done|]. injection Hflag as <-.
  apply Qlt_bool_false in Hsign.
  exists v, (length σ + i)%nat, (set_flag (Qlt_bool (Qabs v) tol7) f).
  split; [done|]. split; [done|]. split.
  { apply lookup_seq. split; [done|]. by eapply lookup_lt_Some. }
  split.
  { rewrite lookup_app_r by lia.
    replace (length σ + i - length σ)%nat with i by lia.
    rewrite lookup_zip_with, Hc. simpl. by rewrite Hi. }
  split; [by destruct (Qlt_bool _ _)|]. split; [by destruct (Qlt_bool _ _)|].
  split; [by destruct (Qlt_bool _ _)|]. split.
  - intros Habs. apply Qlt_bool_iff in Habs. by rewrite Habs.
  - intros Hneg. assert (Hfalse : Qlt_bool (Qabs v) tol7 = false).
    { apply Qlt_bool_false. rewrite Qabs_neg by done. lra. }
    by rewrite Hfalse.
Qed.

(** The cold-start construction returns as soon as no violation is
    positive. *)
Lemma identifyActiveConstraints_cold_start_total
    (ineqs : list LinearInequality) (x0 d : VectorValues) (σ : Store) :
  (forall f, f ∈ ineqs -> exists v, error f x0 = Ok v /\ v <= 0) ->
  exists ws σ', identifyActiveConstraints ineqs x0 d false σ = Ok (ws, σ').
Proof.
  intros Hfeas. rewrite identifyActiveConstraints_flags.
  assert (Hflags : exists flags, mapM (initial_flag x0 d false) ineqs = Ok flags).
  { induction ineqs as [|f ineqs IH]; [by exists []|].
    rewrite mapM_cons. destruct (Hfeas f) as (v & Hv & Hle); [by left|].
    rewrite (initial_flag_cold _ _ _ _ Hv).
    assert (Hcmp : Qlt_bool 0 v = false) by by apply Qlt_bool_false.
    rewrite Hcmp. simpl.
    destruct IH as [flags ->]; [intros g Hg; apply Hfeas; by right|].
    simpl. eauto. }
  destruct Hflags as [flags ->]. simpl. eauto.
Qed.

Lemma mapM_pointwise {T C} (f g : T -> result C) (l : list T) :
  (forall a, f a = g a) -> mapM f l = mapM g l.
Proof.
  intros Hfg. induction l as [|a l IH]; [done|].
  by rewrite !mapM_cons, Hfg, IH.
Qed.

Lemma initial_flag_no_duals (x0 d : VectorValues) (f : LinearInequality) :
  initial_flag x0 ∅ true f = initial_flag x0 d false f.
Proof.
  unfold initial_flag, vv_exists, vv_size. rewrite lookup_empty, map_size_empty.
  rewrite bool_decide_eq_false_2; [done|]. by intros [? ?].
Qed.

(** ** Reading a working set through the store *)

Lemma readGraph_lookup (σ : Store) (g : InequalityFactorGraph)
    (ws : list LinearInequality) :
  readGraph σ g = Ok ws ->
  length ws = length g /\
  forall i l, g !! i = Some l ->
    exists f, ws !! i = Some f /\ σ !! l = Some f.
Proof.
  intros Hread. destruct (mapM_Ok_lookup _ _ _ Hread) as [Hlen Hlook].
  split; [done|]. intros i l Hi. destruct (Hlook i l Hi) as (f & Hf & Hd).
  exists f. split; [done|]. unfold deref in Hd. by destruct (σ !! l); inv_Ok.
Qed.

Lemma readGraph_insert_notin (σ : Store) (g : InequalityFactorGraph)
    (l : nat) (f' : LinearInequality) :
  l ∉ g -> readGraph (<[l := f']> σ) g = readGraph σ g.
Proof.
  unfold readGraph. induction g as [|l0 g IH]; intros Hl; [done|].
  rewrite !mapM_cons. apply not_elem_of_cons in Hl as [Hne Hl].
  rewrite deref_insert_ne by done. by rewrite IH.
Qed.

(** Without aliasing inside the working set, a flag flipped through one
    reference changes that one entry of the working set. *)
Lemma readGraph_insert (σ : Store) (g : InequalityFactorGraph)
    (l : nat) (f f' : LinearInequality) :
  NoDup g -> σ !! l = Some f ->
  forall ws i, readGraph σ g = Ok ws -> g !! i = Some l ->
    readGraph (<[l := f']> σ) g = Ok (<[i := f']> ws).
Proof.
  intros Hnd Hl. unfold readGraph.
  induction Hnd as [|l0 g Hnotin Hnd IH]; intros ws i Hread Hi.
  - by rewrite lookup_nil in Hi.
  - rewrite mapM_cons in Hread |- *.
    destruct (deref σ l0) as [f0|] eqn:Hf0; simpl in Hread; [|done].
    destruct (mapM (deref σ) g) as [ws'|] eqn:Hws'; simpl in Hread; [|done].
    injection Hread as <-.
    destruct i as [|i]; simpl in Hi.
    + injection Hi as ->.
      rewrite (deref_insert_eq _ _ _ _ Hl). simpl.
      fold (readGraph (<[l:=f']> σ) g).
      rewrite readGraph_insert_notin by done.
      unfold readGraph. by rewrite Hws'.
    + assert (l <> l0).
      { intros <-. apply Hnotin. by eapply list_elem_of_lookup_2. }
      rewrite deref_insert_ne by done. rewrite Hf0. simpl.
      by rewrite (IH ws' i eq_refl Hi).
Qed.

(** The index [identifyLeavingConstraint] returns, when it is not the
    sentinel it started from, is the index of an active constraint. *)
Lemma identifyLeavingConstraint_from_range (lambdas : VectorValues) ws :
  forall n worst maxLambda ix,
    identifyLeavingConstraint_from ws lambdas n worst maxLambda = Ok ix ->
    ix = worst \/
    exists i f, ix = Z.of_nat (n + i) /\ ws !! i = Some f /\ active f = true.
Proof.
  induction ws as [|f ws IH]; intros n worst maxLambda ix Hrun; simpl in Hrun.
  - left. by injection Hrun.
  - assert (Hshift : forall w m,
              identifyLeavingConstraint_from ws lambdas (S n) w m = Ok ix ->
              ix = w \/
              exists i g, ix = Z.of_nat (n + i) /\ (f :: ws) !! i = Some g /\
                          active g = true).
    { intros w m Hw. destruct (IH _ _ _ _ Hw) as [-> | (i & g & -> & Hg & Hga)];
        [by left|right].
      exists (S i), g. split; [f_equal; lia|done]. }
    destruct (active f) eqn:Hact; [|by apply (Hshift worst maxLambda)].
    destruct (vv_at lambdas (dualKey f)) as [v|]; simpl in Hrun; [|done].
    destruct (first_component v) as [l0|]; simpl in Hrun; [|done].
    destruct (Qlt_bool maxLambda l0).
    + destruct (Hshift _ _ Hrun) as [-> | H]; [|by right].
      right. exists 0%nat, f. split; [f_equal; lia|done].
    + by apply (Hshift worst maxLambda).
Qed.

(** ** One iteration *)

(** C6, as the code has it.  When the solve with the current working set
    gives a point [nv] equal to the current point within [1e-7] and a
    leaving constraint exists, [iterate] returns: [converged = false]; the
    same vector of references as working set, with the leaving constraint
    deactivated in the store and nothing else changed; the solved point
    [nv] as values; the new duals; the iteration count plus one. *)
Theorem iterate_drops_leaving_constraint (qp : QP) (state : QPState)
    (σ : Store) (ws : list LinearInequality) (nv d' : VectorValues)
    (dualGraph : list (GaussianFactor Cost)) (leaving : Z) :
  readGraph σ (workingSet state) = Ok ws ->
  solveWithCurrentWorkingSet qp ws = Ok nv ->
  vv_equals nv (values state) tol7 = true ->
  buildDualGraph qp ws nv = Ok dualGraph ->
  optimizeGraph dualGraph = Ok d' ->
  identifyLeavingConstraint ws d' = Ok leaving ->
  (0 <= leaving)%Z ->
  exists i l f,
    leaving = Z.of_nat i /\
    workingSet state !! i = Some l /\ σ !! l = Some f /\ active f = true /\
    iterate qp state σ
    = Ok (mkQPState nv d' (workingSet state) false (iterations state + 1),
          <[l := inactivate f]> σ) /\
    (NoDup (workingSet state) ->
       readGraph (<[l := inactivate f]> σ) (workingSet state)
       = Ok (<[i := inactivate f]> ws)).
Proof.
  intros Hread Hsolve Heq Hdual Hopt Hleave Hpos.
  destruct (identifyLeavingConstraint_from_range _ _ _ _ _ _ Hleave)
    as [-> | (i & f & -> & Hf & Hact)]; [lia|].
  simpl in *.
  destruct (readGraph_lookup _ _ _ Hread) as [Hlen Hlook].
  assert (Hl : exists l, workingSet state !! i = Some l).
  { apply lookup_lt_is_Some. rewrite <- Hlen. by eapply lookup_lt_Some. }
  destruct Hl as [l Hl].
  destruct (Hlook i l Hl) as (f' & Hf' & Hσ).
  assert (f' = f) by congruence. subst f'.
  exists i, l, f. repeat split; try done.
  - unfold iterate. rewrite Hread. simpl. rewrite Hsolve. simpl.
    rewrite Heq, Hdual. simpl. rewrite Hopt. simpl. rewrite Hleave. simpl.
    destruct (Z.of_nat i <? 0)%Z eqn:Hneg; [lia|].
    unfold graph_at. rewrite Hneg, Nat2Z.id, Hl. simpl.
    unfold inactivate_at, deref. by rewrite Hσ.
  - intros Hnd. by eapply readGraph_insert.
Qed.

Lemma readGraph_member (σ : Store) (g : InequalityFactorGraph)
    (ws : list LinearInequality) :
  readGraph σ g = Ok ws ->
  (forall j f, ws !! j = Some f -> exists l, g !! j = Some l /\ σ !! l = Some f) /\
  (forall l f, l ∈ g -> σ !! l = Some f -> exists j, g !! j = Some l /\ ws !! j = Some f).
Proof.
  intros Hread. destruct (readGraph_lookup _ _ _ Hread) as [Hlen Hlook]. split.
  - intros j f Hj.
    assert (Hl : exists l, g !! j = Some l).
    { apply lookup_lt_is_Some. rewrite <- Hlen. by eapply lookup_lt_Some. }
    destruct Hl as [l Hl]. exists l. split; [done|].
    destruct (Hlook j l Hl) as (f' & Hf' & Hσ). congruence.
  - intros l f Hl Hσ. apply list_elem_of_lookup_1 in Hl as [j Hj].
    exists j. split; [done|].
    destruct (Hlook j l Hj) as (f' & Hf' & Hσ'). congruence.
Qed.

(** One iteration, case by case (QPSolver.cpp:169-228). *)
Lemma iterate_cases (qp : QP) (state state' : QPState) (σ σ' : Store)
    (ws : list LinearInequality) :
  readGraph σ (workingSet state) = Ok ws ->
  iterate qp state σ = Ok (state', σ') ->
  exists nv,
    solveWithCurrentWorkingSet qp ws = Ok nv /\
    workingSet state' = workingSet state /\
    iterations state' = (iterations state + 1)%N /\
    ((vv_equals nv (values state) tol7 = true /\ values state' = nv /\
      exists dualGraph leaving,
        buildDualGraph qp ws nv = Ok dualGraph /\
        optimizeGraph dualGraph = Ok (duals state') /\
        identifyLeavingConstraint ws (duals state') = Ok leaving /\
        (((leaving < 0)%Z /\ converged state' = true /\ σ' = σ) \/
         (exists i l f,
            leaving = Z.of_nat i /\ workingSet state !! i = Some l /\
            ws !! i = Some f /\ σ !! l = Some f /\ active f = true /\
            converged state' = false /\ σ' = <[l := inactivate f]> σ))) \/
     (vv_equals nv (values state) tol7 = false /\
      converged state' = false /\ duals state' = duals state /\
      exists p alpha ix,
        vv_sub nv (values state) = Ok p /\
        computeStepSize ws (values state) p = Ok (alpha, ix) /\
        vv_add (values state) (vv_scale alpha p) = Ok (values state') /\
        ((ix = (-1)%Z /\ alpha = 1 /\ σ' = σ) \/
         (exists i l f,
            ix = Z.of_nat i /\ workingSet state !! i = Some l /\
            ws !! i = Some f /\ σ !! l = Some f /\
            blocks_at ws (values state) p i alpha /\
            σ' = <[l := activate f]> σ)))).
Proof.
  intros Hread. unfold iterate. rewrite Hread. simpl. intros Hrun.
  destruct (readGraph_member _ _ _ Hread) as [Hfwd _].
  destruct (solveWithCurrentWorkingSet qp ws) as [nv|] eqn:Hnv;
    simpl in Hrun; [|done].
  exists nv. split; [done|].
  destruct (vv_equals nv (values state) tol7).
  - destruct (buildDualGraph qp ws nv) as [dg|] eqn:Hdg; simpl in Hrun; [|done].
    destruct (optimizeGraph dg) as [d'|] eqn:Hd'; simpl in Hrun; [|done].
    destruct (identifyLeavingConstraint ws d') as [leaving|] eqn:Hleave;
      simpl in Hrun; [|done].
    destruct (leaving <? 0)%Z eqn:Hneg.
    + injection Hrun as <- <-. simpl. repeat split; try done. left.
      repeat split; try done. exists dg, leaving. repeat split; try done.
      left. repeat split; try done. by apply Z.ltb_lt.
    + destruct (identifyLeavingConstraint_from_range _ _ _ _ _ _ Hleave)
        as [-> | (i & f & -> & Hf & Hact)]; [done|]. simpl in *.
      destruct (Hfwd i f Hf) as (l & Hl & Hσ).
      unfold graph_at in Hrun.
      rewrite Hneg, Nat2Z.id, Hl in Hrun. simpl in Hrun.
      unfold inactivate_at, deref in Hrun. rewrite Hσ in Hrun. simpl in Hrun.
      injection Hrun as <- <-. simpl. repeat split; try done. left.
      repeat split; try done. exists dg, (Z.of_nat i). repeat split; try done.
      right. by exists i, l, f.
  - destruct (vv_sub nv (values state)) as [p|] eqn:Hp; simpl in Hrun; [|done].
    destruct (computeStepSize ws (values state) p) as [[alpha ix]|] eqn:Hstep;
      simpl in Hrun; [|done].
    destruct (computeStepSize_from_inv _ _ _ _ _ _ _ _ Hstep)
      as [[-> ->] | (i & -> & Hblock)]; simpl in Hrun.
    + destruct (vv_add _ _) as [nv'|] eqn:Hadd; simpl in Hrun; [|done].
      injection Hrun as <- <-. simpl. repeat split; try done. right.
      repeat split; try done. exists p, 1, (-1)%Z. repeat split; try done.
      by left.
    + simpl in *. destruct Hblock as (f & aTp & aTx & Hf & Hrest).
      destruct (Hfwd i f Hf) as (l & Hl & Hσ).
      assert (Hpos : (0 <=? Z.of_nat i)%Z = true) by (apply Z.leb_le; lia).
      assert (Hneg' : (Z.of_nat i <? 0)%Z = false) by (apply Z.ltb_ge; lia).
      rewrite Hpos in Hrun. unfold graph_at in Hrun.
      rewrite Hneg', Nat2Z.id, Hl in Hrun. simpl in Hrun.
      unfold activate_at, deref in Hrun. rewrite Hσ in Hrun. simpl in Hrun.
      destruct (vv_add _ _) as [nv'|] eqn:Hadd; simpl in Hrun; [|done].
      injection Hrun as <- <-. simpl. repeat split; try done. right.
      repeat split; try done. exists p, alpha, (Z.of_nat i).
      repeat split; try done. right. exists i, l, f. repeat split; try done.
      by exists f, aTp, aTx.
Qed.



(** C8, as the code has it.  [iterate] returns a state that holds the
    references of the input working set, and changes the store in at most
    one place, through a reference of the input working set: it clears the
    flag of the leaving constraint, the active constraint whose index
    [identifyLeavingConstraint] returns, or it sets the flag of the blocking
    constraint, the inactive constraint whose index [computeStepSize]
    returns.  With the sentinel [-1] nothing changes.  The coefficients,
    bound and dual key of that constraint, and every other constraint, are
    as before. *)
Theorem iterate_flips_one_flag_in_place (qp : QP) (state state' : QPState)
    (σ σ' : Store) :
  iterate qp state σ = Ok (state', σ') ->
  workingSet state' = workingSet state /\
  exists ws nv,
    readGraph σ (workingSet state) = Ok ws /\
    solveWithCurrentWorkingSet qp ws = Ok nv /\
    ((vv_equals nv (values state) tol7 = true /\
      exists leaving,
        identifyLeavingConstraint ws (duals state') = Ok leaving /\
        (((leaving < 0)%Z /\ σ' = σ) \/
         (exists i l f,
            leaving = Z.of_nat i /\ workingSet state !! i = Some l /\
            σ !! l = Some f /\ active f = true /\
            σ' = <[l := inactivate f]> σ))) \/
     (vv_equals nv (values state) tol7 = false /\
      exists p alpha ix,
        vv_sub nv (values state) = Ok p /\
        computeStepSize ws (values state) p = Ok (alpha, ix) /\
        ((ix = (-1)%Z /\ σ' = σ) \/
         (exists i l f,
            ix = Z.of_nat i /\ workingSet state !! i = Some l /\
            σ !! l = Some f /\ active f = false /\
            σ' = <[l := activate f]> σ)))).
Proof.
  intros Hrun.
  destruct (readGraph σ (workingSet state)) as [ws|e] eqn:Hread.
  2:{ unfold iterate in Hrun. rewrite Hread in Hrun. done. }
  destruct (iterate_cases qp _ _ _ _ _ Hread Hrun)
    as (nv & Hsolve & Hws & _ & Hcase).
  split; [done|]. exists ws, nv. split; [done|]. split; [done|].
  destruct Hcase as [(Heq & _ & dg & leaving & _ & _ & Hleave & Hend)
                    | (Hneq & _ & _ & p & alpha & ix & Hp & Hstep & _ & Hend)].
  - left. split; [done|]. exists leaving. split; [done|].
    destruct Hend as [(Hneg & _ & ->) | (i & l & f & -> & Hl & _ & Hf & Hact & _ & ->)].
    + by left.
    + right. by exists i, l, f.
  - right. split; [done|]. exists p, alpha, ix. split; [done|]. split; [done|].
    destruct Hend as [(-> & _ & ->) | (i & l & f & -> & Hl & Hi & Hf & Hblock & ->)].
    + by left.
    + right. exists i, l, f. repeat split; try done.
      destruct Hblock as (g & ? & ? & Hg & Hact & _). congruence.
Qed.

(** ** Row products and the structure of points *)








(** ** The shapes of a successful iteration *)

(** A successful [iterate] either stays at the solved point, dropping at
    most one constraint, or takes a step, adding at most one. *)
Lemma iterate_shapes (qp : QP) (state state' : QPState) (σ σ' : Store)
    (ws : list LinearInequality) (nv : VectorValues) :
  readGraph σ (workingSet state) = Ok ws ->
  solveWithCurrentWorkingSet qp ws = Ok nv ->
  iterate qp state σ = Ok (state', σ') ->
  workingSet state' = workingSet state /\
  ((vv_equals nv (values state) tol7 = true /\ values state' = nv /\
    (σ' = σ \/
     exists i l f, workingSet state !! i = Some l /\ σ !! l = Some f /\
                   σ' = <[l := inactivate f]> σ)) \/
   (vv_equals nv (values state) tol7 = false /\
    exists p alpha ix,
      vv_sub nv (values state) = Ok p /\
      computeStepSize ws (values state) p = Ok (alpha, ix) /\
      vv_add (values state) (vv_scale alpha p) = Ok (values state') /\
      (((ix < 0)%Z /\ σ' = σ) \/
       ((0 <= ix)%Z /\
        exists l f, workingSet state !! Z.to_nat ix = Some l /\ σ !! l = Some f /\
                    σ' = <[l := activate f]> σ)))).
Proof.
  intros Hread Hsolve. unfold iterate. rewrite Hread. simpl. rewrite Hsolve. simpl.
  intros Hrun.
  destruct (vv_equals nv (values state) tol7).
  - destruct (buildDualGraph qp ws nv) as [dg|]; simpl in Hrun; [|done].
    destruct (optimizeGraph dg) as [d'|]; simpl in Hrun; [|done].
    destruct (identifyLeavingConstraint ws d') as [leaving|]; simpl in Hrun; [|done].
    destruct (leaving <? 0)%Z eqn:Hneg.
    + injection Hrun as <- <-. split; [done|]. left. repeat split; try done. by left.
    + unfold graph_at in Hrun. rewrite Hneg in Hrun.
      destruct (workingSet state !! Z.to_nat leaving) as [l|] eqn:Hl;
        simpl in Hrun; [|done].
      unfold inactivate_at, deref in Hrun.
      destruct (σ !! l) as [f|] eqn:Hf; simpl in Hrun; [|done].
      injection Hrun as <- <-. split; [done|]. left. repeat split; try done.
      right. by exists (Z.to_nat leaving), l, f.
  - destruct (vv_sub nv (values state)) as [p|]; simpl in Hrun; [|done].
    destruct (computeStepSize ws (values state) p) as [[alpha ix]|] eqn:Hstep;
      simpl in Hrun; [|done].
    destruct (0 <=? ix)%Z eqn:Hix.
    + unfold graph_at in Hrun.
      destruct (ix <? 0)%Z; simpl in Hrun; [done|].
      destruct (workingSet state !! Z.to_nat ix) as [l|] eqn:Hl;
        simpl in Hrun; [|done].
      unfold activate_at, deref in Hrun.
      destruct (σ !! l) as [f|] eqn:Hf; simpl in Hrun; [|done].
      destruct (vv_add _ _) as [nv'|] eqn:Hadd; simpl in Hrun; [|done].
      injection Hrun as <- <-. split; [done|]. right. split; [done|].
      exists p, alpha, ix. repeat split; try done.
      right. split; [lia|]. by exists l, f.
    + simpl in Hrun.
      destruct (vv_add _ _) as [nv'|] eqn:Hadd; simpl in Hrun; [|done].
      injection Hrun as <- <-. split; [done|]. right. split; [done|].
      exists p, alpha, ix. repeat split; try done.
      left. split; [lia|done].
Qed.





(** ** Runs of [optimize] *)

Lemma same_rows_set_flag (b : bool) (f : LinearInequality) :
  same_rows (set_flag b f) f.
Proof. by destruct b. Qed.

Lemma same_rows_trans (f g h : LinearInequality) :
  same_rows f g -> same_rows g h -> same_rows f h.
Proof. intros (? & ? & ?) (? & ? & ?). repeat split; congruence. Qed.

(** The copies made by [identifyActiveConstraints] read back in order. *)
Lemma readGraph_fresh (σ : Store) (ws : list LinearInequality) :
  readGraph (σ ++ ws) (seq (length σ) (length ws)) = Ok ws.
Proof.
  revert σ. induction ws as [|f ws IH]; intros σ; [done|].
  cbn [length seq]. unfold readGraph in *. rewrite mapM_cons.
  rewrite deref_middle. simpl.
  specialize (IH (σ ++ [f])). rewrite length_app in IH. simpl in IH.
  rewrite Nat.add_1_r, <- app_assoc in IH. simpl in IH. by rewrite IH.
Qed.

(** Flipping a flag through a reference keeps the rows of every
    constraint of a working set. *)
Lemma readGraph_flip (σ : Store) (l : nat) (f f' : LinearInequality)
    (g : InequalityFactorGraph) :
  σ !! l = Some f -> same_rows f' f ->
  forall ws, readGraph σ g = Ok ws ->
    exists ws', readGraph (<[l := f']> σ) g = Ok ws' /\ Forall2 same_rows ws' ws.
Proof.
  intros Hl Hrows. unfold readGraph.
  induction g as [|l0 g IH]; intros ws Hread.
  - injection Hread as <-. by exists [].
  - rewrite mapM_cons in Hread |- *.
    destruct (deref σ l0) as [f0|] eqn:Hf0; simpl in Hread; [|done].
    destruct (mapM (deref σ) g) as [ws0|] eqn:Hws0; simpl in Hread; [|done].
    injection Hread as <-.
    destruct (IH ws0 eq_refl) as (ws' & -> & Hall).
    destruct (decide (l = l0)) as [<-|Hne].
    + rewrite (deref_insert_eq _ _ _ _ Hl). simpl.
      exists (f' :: ws'). split; [done|]. constructor; [|done].
      unfold deref in Hf0. rewrite Hl in Hf0. by injection Hf0 as <-.
    + rewrite deref_insert_ne by done. rewrite Hf0. simpl.
      exists (f0 :: ws'). split; [done|]. by constructor.
Qed.

Lemma Forall2_same_rows_trans (ws1 ws2 ws3 : list LinearInequality) :
  Forall2 same_rows ws1 ws2 -> Forall2 same_rows ws2 ws3 ->
  Forall2 same_rows ws1 ws3.
Proof.
  intros H12. revert ws3. induction H12; intros ws3 H23; inversion H23; subst.
  - constructor.
  - constructor; [by eapply same_rows_trans|by apply IHForall2].
Qed.

Lemma iterate_run_invariant (qp : QP) (ineqs : list LinearInequality)
    (refs : InequalityFactorGraph) (state state' : QPState) (σ σ' : Store) :
  run_invariant ineqs refs state σ ->
  iterate qp state σ = Ok (state', σ') ->
  run_invariant ineqs refs state' σ'.
Proof.
  intros [Hrefs (ws & Hread & Hrows)] Hrun. subst refs.
  destruct (solveWithCurrentWorkingSet qp ws) as [nv|e] eqn:Hsolve.
  2:{ unfold iterate in Hrun. rewrite Hread in Hrun. simpl in Hrun.
      rewrite Hsolve in Hrun. done. }
  destruct (iterate_shapes _ _ _ _ _ _ _ Hread Hsolve Hrun) as [Hws Hshape].
  split; [done|].
  assert (Hσ : σ' = σ \/ exists l f b, σ !! l = Some f /\ σ' = <[l := set_flag b f]> σ).
  { destruct Hshape as [(_ & _ & [-> | (i & l & f & _ & Hf & ->)])
                       | (_ & p & alpha & ix & _ & _ & _ &
                          [[_ ->] | (_ & l & f & _ & Hf & ->)])].
    - by left.
    - right. by exists l, f, false.
    - by left.
    - right. by exists l, f, true. }
  destruct Hσ as [-> | (l & f & b & Hf & ->)]; [by exists ws|].
  destruct (readGraph_flip σ l f (set_flag b f) (workingSet state) Hf
              (same_rows_set_flag b f) ws Hread) as (ws' & Hread' & Hrows').
  exists ws'. split; [done|]. by eapply Forall2_same_rows_trans.
Qed.

(** A loop that ends has run a last iteration, which converged. *)
Lemma main_loop_final (qp : QP) (ineqs : list LinearInequality)
    (refs : InequalityFactorGraph) (fuel : nat) :
  forall (state : QPState) (σ : Store) (final : QPState) (σf : Store),
    main_loop qp fuel state σ = Some (Ok (final, σf)) ->
    converged state = false ->
    run_invariant ineqs refs state σ ->
    exists state' σ',
      run_invariant ineqs refs state' σ' /\
      iterate qp state' σ' = Ok (final, σf) /\ converged final = true.
Proof.
  induction fuel as [|fuel IH]; intros state σ final σf Hloop Hconv Hinv;
    simpl in Hloop; rewrite Hconv in Hloop; [done|].
  destruct (iterate qp state σ) as [[state1 σ1]|e] eqn:Hstep; [|done].
  destruct (converged state1) eqn:Hconv1.
  - assert (Hend : main_loop qp fuel state1 σ1 = Some (Ok (state1, σ1))).
    { destruct fuel; simpl; by rewrite Hconv1. }
    rewrite Hend in Hloop. injection Hloop as <- <-.
    by exists state, σ.
  - apply (IH state1 σ1 final σf Hloop Hconv1).
    by eapply iterate_run_invariant.
Qed.

(** What a converging iteration has computed. *)
Lemma iterate_converged (qp : QP) (state final : QPState) (σ σ' : Store)
    (ws : list LinearInequality) :
  readGraph σ (workingSet state) = Ok ws ->
  iterate qp state σ = Ok (final, σ') ->
  converged final = true ->
  exists dualGraph leaving,
    solveWithCurrentWorkingSet qp ws = Ok (values final) /\
    buildDualGraph qp ws (values final) = Ok dualGraph /\
    optimizeGraph dualGraph = Ok (duals final) /\
    identifyLeavingConstraint ws (duals final) = Ok leaving /\
    (leaving < 0)%Z /\ σ' = σ.
Proof.
  intros Hread. unfold iterate. rewrite Hread. simpl. intros Hrun Hconv.
  destruct (solveWithCurrentWorkingSet qp ws) as [nv|] eqn:Hnv;
    simpl in Hrun; [|done].
  destruct (vv_equals nv (values state) tol7).
  - destruct (buildDualGraph qp ws nv) as [dg|] eqn:Hdg; simpl in Hrun; [|done].
    destruct (optimizeGraph dg) as [d'|] eqn:Hd'; simpl in Hrun; [|done].
    destruct (identifyLeavingConstraint ws d') as [leaving|] eqn:Hleave;
      simpl in Hrun; [|done].
    destruct (leaving <? 0)%Z eqn:Hneg.
    + injection Hrun as <- <-. simpl. exists dg, leaving.
      repeat split; try done. by apply Z.ltb_lt.
    + destruct (graph_at _ _); simpl in Hrun; [|done].
      destruct (inactivate_at _ _); simpl in Hrun; [|done].
      injection Hrun as <- <-. done.
  - destruct (vv_sub nv (values state)) as [p|]; simpl in Hrun; [|done].
    destruct (computeStepSize ws (values state) p) as [[alpha ix]|];
      simpl in Hrun; [|done].
    destruct (if (0 <=? ix)%Z then _ else _); simpl in Hrun; [|done].
    destruct (vv_add _ _); simpl in Hrun; [|done].
    injection Hrun as <- <-. done.
Qed.

Lemma within_tol7_refl (a : Q) : Qle_bool (Qabs (fsub a a)) tol7 = true.
Proof.
  apply Qle_bool_iff, Qabs_Qle_condition. rewrite fsub_diag.
  unfold tol7. split; lra.
Qed.

Lemma equal_with_abs_tol_refl (v : Vector) : equal_with_abs_tol v v tol7 = true.
Proof.
  unfold equal_with_abs_tol. rewrite bool_decide_eq_true_2 by done. cbn [andb].
  induction v as [|a v IH]; [done|].
  cbn [zip_with forallb]. by rewrite within_tol7_refl, IH.
Qed.

Lemma vv_equals_refl (x : VectorValues) : vv_equals x x tol7 = true.
Proof.
  unfold vv_equals. rewrite bool_decide_eq_true_2 by done. simpl.
  apply forallb_forall. intros [k v] Hin.
  apply list_elem_of_In, elem_of_map_to_list in Hin. rewrite Hin.
  apply equal_with_abs_tol_refl.
Qed.

(** With duals at hand, a warm start flags a constraint by the presence of
    its multiplier. *)
Lemma mapM_initial_flag_warm (x d : VectorValues) (ineqs : list LinearInequality) :
  (0 < vv_size d)%nat ->
  mapM (initial_flag x d true) ineqs
  = Ok ((fun f => vv_exists d (dualKey f)) <$> ineqs).
Proof.
  intros Hsize. induction ineqs as [|f ineqs IH]; [done|].
  rewrite mapM_cons, IH. unfold initial_flag. simpl.
  destruct (vv_exists d (dualKey f)); simpl; [done|].
  assert (Hlt : (0 <? vv_size d)%nat = true) by by apply Nat.ltb_lt.
  by rewrite Hlt.
Qed.

Lemma restore_working_set (d : VectorValues) (ws ineqs : list LinearInequality) :
  Forall2 same_rows ws ineqs ->
  (forall f, f ∈ ws -> active f = vv_exists d (dualKey f)) ->
  zip_with set_flag ((fun f => vv_exists d (dualKey f)) <$> ineqs) ineqs = ws.
Proof.
  induction 1 as [|f f0 ws ineqs (Ht & Hb & Hk) Hall IH]; intros Hact; [done|].
  rewrite fmap_cons. cbn [zip_with].
  rewrite IH by (intros g Hg; apply Hact; by right). f_equal.
  rewrite <- Hk, <- (Hact f) by by left.
  destruct f as [t b k a], f0 as [t0 b0 k0 a0]; simpl in *. subst.
  by destruct a.
Qed.

(** A warm start from the result of a converged iteration converges in one
    iteration to the same result. *)
Lemma warm_restart (qp : QP) (ws : list LinearInequality) (nv d : VectorValues)
    (dualGraph : list (GaussianFactor Cost)) (leaving : Z) (σ : Store)
    (fuel : nat) :
  Forall2 same_rows ws (inequalities qp) ->
  solveWithCurrentWorkingSet qp ws = Ok nv ->
  buildDualGraph qp ws nv = Ok dualGraph ->
  optimizeGraph dualGraph = Ok d ->
  identifyLeavingConstraint ws d = Ok leaving ->
  (leaving < 0)%Z ->
  (0 < vv_size d)%nat ->
  (forall f, f ∈ ws -> active f = vv_exists d (dualKey f)) ->
  optimize qp (S fuel) nv d true σ = Some (Ok (nv, d, σ ++ ws)).
Proof.
  intros Hrows Hsolve Hdual Hopt Hleave Hneg Hsize Hact.
  unfold optimize. rewrite identifyActiveConstraints_flags.
  rewrite mapM_initial_flag_warm by done. simpl.
  rewrite (restore_working_set d ws) by done.
  assert (Hlen : length (inequalities qp) = length ws).
  { symmetry. by eapply Forall2_length. }
  rewrite Hlen.
  unfold iterate. simpl. rewrite readGraph_fresh. simpl.
  rewrite Hsolve. simpl. rewrite vv_equals_refl, Hdual. simpl.
  rewrite Hopt. simpl. rewrite Hleave. simpl.
  assert (Hltb : (leaving <? 0)%Z = true) by by apply Z.ltb_lt.
  rewrite Hltb.
  by destruct fuel.
Qed.

End SolverProperties.

(** ** Variable indices and key sets *)

Lemma index_term_spec (i : nat) (ks : list Key) (k : Key) (j : nat) :
  forall idx : VariableIndex,
    j ∈ default [] (index_term idx i ks !! k)
    <-> j ∈ default [] (idx !! k) \/ (j = i /\ k ∈ ks).
Proof.
  unfold index_term. induction ks as [|k0 ks IH]; intros idx; simpl.
  - split; [by left|]. intros [H | [_ H]]; [done|]. by apply elem_of_nil in H.
  - rewrite IH. rewrite elem_of_cons.
    destruct (decide (k0 = k)) as [->|Hne].
    + rewrite lookup_insert_eq. simpl. rewrite elem_of_app, list_elem_of_singleton.
      intuition auto.
    + rewrite lookup_insert_ne by done. intuition congruence.
Qed.

Lemma variableIndex_from_spec (keyss : list (list Key)) (k : Key) (j : nat) :
  forall (n : nat) (idx : VariableIndex),
    j ∈ default [] (variableIndex_from n keyss idx !! k)
    <-> j ∈ default [] (idx !! k) \/
        exists i ks, j = (n + i)%nat /\ keyss !! i = Some ks /\ k ∈ ks.
Proof.
  induction keyss as [|ks0 keyss IH]; intros n idx; simpl.
  - split; [by left|]. intros [H | (i & ks & _ & H & _)]; [done|].
    by rewrite lookup_nil in H.
  - rewrite IH, index_term_spec. split.
    + intros [[H | [-> Hk]] | (i & ks & -> & Hi & Hk)].
      * by left.
      * right. exists 0%nat, ks0. split; [lia|done].
      * right. exists (S i), ks. split; [lia|done].
    + intros [H | (i & ks & -> & Hi & Hk)]; [by left; left|].
      destruct i as [|i]; simpl in Hi.
      * injection Hi as <-. left. right. split; [lia|done].
      * right. exists i, ks. split; [lia|done].
Qed.

(** The index of a variable lists the terms the variable occurs in. *)
Lemma variableIndex_spec (keyss : list (list Key)) (k : Key) (j : nat) :
  j ∈ default [] (variableIndex keyss !! k)
  <-> exists ks, keyss !! j = Some ks /\ k ∈ ks.
Proof.
  unfold variableIndex. rewrite variableIndex_from_spec, lookup_empty. simpl.
  split.
  - intros [H | (i & ks & -> & Hi & Hk)]; [by apply elem_of_nil in H|].
    by exists ks.
  - intros (ks & Hj & Hk). right. by exists j, ks.
Qed.

Lemma keyset_insert_spec (k x : Key) (s : list Key) :
  x ∈ keyset_insert k s <-> x = k \/ x ∈ s.
Proof.
  induction s as [|k' s IH]; simpl.
  - rewrite list_elem_of_singleton. split; [by left|]. intros [H | H]; [done|].
    by apply elem_of_nil in H.
  - destruct (k <? k')%N; [by rewrite elem_of_cons|].
    destruct (k =? k')%N eqn:Heq.
    + apply N.eqb_eq in Heq as ->. rewrite elem_of_cons. tauto.
    + rewrite !elem_of_cons, IH. tauto.
Qed.

Lemma keyset_merge_spec (ks : list Key) (x : Key) :
  forall s : list Key, x ∈ keyset_merge ks s <-> x ∈ ks \/ x ∈ s.
Proof.
  unfold keyset_merge. induction ks as [|k ks IH]; intros s; simpl.
  - split; [by right|]. intros [H | H]; [by apply elem_of_nil in H|done].
  - rewrite IH, keyset_insert_spec, elem_of_cons. tauto.
Qed.

(** ** The variables of the dual graph *)

Lemma collectDualJacobians_ineq_keys (key : Key) (ws : list LinearInequality)
    (ixs : list nat) :
  forall Aterms,
    collectDualJacobians_ineq key ws ixs = Ok Aterms ->
    forall kd, kd ∈ (fst <$> Aterms)
      <-> exists i f, i ∈ ixs /\ ws !! i = Some f /\ active f = true /\ dualKey f = kd.
Proof.
  induction ixs as [|ix ixs IH]; intros Aterms Hrun kd; simpl in Hrun.
  - injection Hrun as <-. split.
    + intros H. by apply elem_of_nil in H.
    + intros (i & f & H & _). by apply elem_of_nil in H.
  - destruct (ws !! ix) as [factor|] eqn:Hix; simpl in Hrun; [|done].
    destruct (active factor) eqn:Hact.
    + destruct (find_block key (terms factor)) as [Ai|]; simpl in Hrun; [|done].
      destruct (collectDualJacobians_ineq key ws ixs) as [rest|] eqn:Hrest;
        simpl in Hrun; [|done].
      injection Hrun as <-. rewrite fmap_cons, elem_of_cons, (IH rest eq_refl). simpl.
      split.
      * intros [-> | (i & f & Hi & Hf)].
        -- exists ix, factor. split; [by left|done].
        -- exists i, f. split; [by right|done].
      * intros (i & f & Hi & Hf & Hfa & Hfk).
        apply elem_of_cons in Hi as [-> | Hi].
        -- left. congruence.
        -- right. by exists i, f.
    + rewrite (IH Aterms Hrun). split.
      * intros (i & f & Hi & Hf). exists i, f. split; [by right|done].
      * intros (i & f & Hi & Hf & Hfa & Hfk).
        apply elem_of_cons in Hi as [-> | Hi]; [congruence|].
        by exists i, f.
Qed.

Lemma collectDualJacobians_eq_keys (key : Key) (eqs : list LinearEquality)
    (ixs : list nat) :
  forall Aterms,
    collectDualJacobians_eq key eqs ixs = Ok Aterms ->
    forall kd, kd ∈ (fst <$> Aterms) -> exists e, e ∈ eqs /\ eq_dualKey e = kd.
Proof.
  induction ixs as [|ix ixs IH]; intros Aterms Hrun kd Hkd; simpl in Hrun.
  - injection Hrun as <-. by apply elem_of_nil in Hkd.
  - destruct (eqs !! ix) as [factor|] eqn:Hix; simpl in Hrun; [|done].
    destruct (find_block key (eq_terms factor)) as [Ai|]; simpl in Hrun; [|done].
    destruct (collectDualJacobians_eq key eqs ixs) as [rest|] eqn:Hrest;
      simpl in Hrun; [|done].
    injection Hrun as <-. rewrite fmap_cons in Hkd.
    apply elem_of_cons in Hkd as [-> | Hkd].
    + exists factor. split; [by eapply list_elem_of_lookup_2|done].
    + by apply (IH rest).
Qed.

Section DualGraph.
Context {A : Arith} {B : LinearBackend}.
Variable qp : QP.

(** An active constraint indexed at [key] puts its dual key in the dual
    factor of [key]; a dual key of that factor is the dual key of an
    equality or of an active constraint. *)
Lemma createDualFactor_keys (key : Key) (ws : list LinearInequality)
    (delta : VectorValues) (j : JacobianFactor) :
  createDualFactor qp key ws delta = Ok j ->
  forall kd,
    (kd ∈ (fst <$> jac_terms j) ->
       (exists e, e ∈ equalities qp /\ eq_dualKey e = kd) \/
       (exists i f, ws !! i = Some f /\ active f = true /\ dualKey f = kd)) /\
    ((exists i f, i ∈ default [] (inequalityVariableIndex_ qp !! key) /\
                  ws !! i = Some f /\ active f = true /\ dualKey f = kd) ->
       kd ∈ (fst <$> jac_terms j)).
Proof.
  unfold createDualFactor. intros Hrun kd.
  destruct (collectDualJacobians_eq key (equalities qp) _) as [Aeq|] eqn:Heq;
    simpl in Hrun; [|done].
  destruct (collectDualJacobians_ineq key ws _) as [Aineq|] eqn:Hineq;
    simpl in Hrun; [|done].
  pose proof (collectDualJacobians_eq_keys _ _ _ _ Heq kd) as Hkeq.
  pose proof (collectDualJacobians_ineq_keys _ _ _ _ Hineq kd) as Hkineq.
  assert (Hall : kd ∈ (fst <$> (Aeq ++ Aineq))
                 <-> kd ∈ (fst <$> Aeq) \/ kd ∈ (fst <$> Aineq)).
  { by rewrite fmap_app, elem_of_app. }
  destruct (0 <? length (Aeq ++ Aineq))%nat eqn:Hsize.
  - destruct (vv_at delta key) as [dv|]; simpl in Hrun; [|done].
    destruct (sum_gradients _ _ _ _ _) as [b|]; simpl in Hrun; [|done].
    injection Hrun as <-. simpl. rewrite Hall, Hkineq. split.
    + intros [H | (i & f & _ & H)]; [left; by apply Hkeq|right; by exists i, f].
    + intros H. by right.
  - injection Hrun as <-. simpl.
    apply Nat.ltb_ge in Hsize.
    assert (Hnil : Aeq ++ Aineq = []) by (apply length_zero_iff_nil; lia).
    apply app_eq_nil in Hnil as [-> ->].
    split.
    + intros H. by apply elem_of_nil in H.
    + intros H. apply Hkineq in H. by apply elem_of_nil in H.
Qed.

Lemma buildDualGraph_from_keys (keys : list Key) (ws : list LinearInequality)
    (delta : VectorValues) :
  forall dualGraph,
    buildDualGraph_from qp keys ws delta = Ok dualGraph ->
    forall kd,
      (kd ∈ graph_keys dualGraph ->
         (exists e, e ∈ equalities qp /\ eq_dualKey e = kd) \/
         (exists i f, ws !! i = Some f /\ active f = true /\ dualKey f = kd)) /\
      ((exists key i f, key ∈ keys /\
                        i ∈ default [] (inequalityVariableIndex_ qp !! key) /\
                        ws !! i = Some f /\ active f = true /\ dualKey f = kd) ->
         kd ∈ graph_keys dualGraph).
Proof.
  induction keys as [|key keys IH]; intros dualGraph Hrun kd; simpl in Hrun.
  - injection Hrun as <-. split.
    + intros H. by apply elem_of_nil in H.
    + intros (key & i & f & H & _). by apply elem_of_nil in H.
  - destruct (createDualFactor qp key ws delta) as [j|] eqn:Hj; simpl in Hrun; [|done].
    destruct (buildDualGraph_from qp keys ws delta) as [rest|] eqn:Hrest;
      simpl in Hrun; [|done].
    destruct (createDualFactor_keys key ws delta j Hj kd) as [Hj1 Hj2].
    destruct (IH rest eq_refl kd) as [IH1 IH2].
    assert (Hkeys : kd ∈ graph_keys dualGraph
                    <-> kd ∈ (fst <$> jac_terms j) \/ kd ∈ graph_keys rest).
    { destruct (jac_empty j) eqn:Hempty; simpl in Hrun; injection Hrun as <-.
      - unfold jac_empty in Hempty. destruct (jac_terms j); [|done].
        split; [by right|]. intros [H | H]; [by apply elem_of_nil in H|done].
      - unfold graph_keys. rewrite fmap_cons. simpl. by rewrite elem_of_app. }
    rewrite Hkeys. split.
    + intros [H | H]; [by apply Hj1|by apply IH1].
    + intros (key' & i & f & Hkey & Hi & Hf).
      apply elem_of_cons in Hkey as [-> | Hkey].
      * left. apply Hj2. by exists i, f.
      * right. apply IH2. by exists key', i, f.
Qed.

(** With dual keys of their own, the duals of a dual graph hold a
    multiplier for the active constraints and for no inactive one. *)
Lemma duals_mark_active_constraints (ws : list LinearInequality)
    (nv d : VectorValues) (dualGraph : list (GaussianFactor Cost)) :
  Forall2 same_rows ws (inequalities qp) ->
  dual_keys_unique qp ->
  buildDualGraph qp ws nv = Ok dualGraph ->
  (forall k, is_Some (d !! k) <-> k ∈ graph_keys dualGraph) ->
  forall f, f ∈ ws -> active f = vv_exists d (dualKey f).
Proof.
  intros Hrows (Hnodup & Hdisj & Hterms) Hbuild Hdom f Hf.
  apply list_elem_of_lookup_1 in Hf as [i Hi].
  destruct (Forall2_lookup_l _ _ _ _ _ Hrows Hi) as (f0 & Hi0 & Ht & Hb & Hk).
  destruct (buildDualGraph_from_keys _ _ _ _ Hbuild (dualKey f)) as [Hfrom Hto].
  unfold vv_exists. destruct (active f) eqn:Hact; symmetry.
  - apply bool_decide_eq_true, Hdom, Hto.
    assert (Hne : terms f0 <> []).
    { apply Hterms. by eapply list_elem_of_lookup_2. }
    destruct (terms f0) as [|[key a] ts] eqn:Hts; [done|].
    exists key, i, f. repeat split; try done.
    + unfold constrainedKeys_. apply keyset_merge_spec. left.
      apply list_elem_of_In, in_concat. exists (fst <$> terms f0). split.
      * apply list_elem_of_In, list_elem_of_fmap. exists f0.
        split; [done|by eapply list_elem_of_lookup_2].
      * rewrite Hts. by left.
    + unfold inequalityVariableIndex_. apply variableIndex_spec.
      exists (fst <$> terms f0). rewrite list_lookup_fmap, Hi0. split; [done|].
      rewrite Hts. by left.
  - apply bool_decide_eq_false. intros Hsome.
    apply Hdom, Hfrom in Hsome as [(e & He & Hek) | (i' & f' & Hi' & Hact' & Hk')].
    + apply (Hdisj e f0); [done|by eapply list_elem_of_lookup_2|congruence].
    + destruct (Forall2_lookup_l _ _ _ _ _ Hrows Hi') as (f0' & Hi0' & _ & _ & Hk0').
      assert (i' = i).
      { eapply (NoDup_lookup _ _ _ (dualKey f0)); [done| |].
        - rewrite list_lookup_fmap, Hi0'. simpl. congruence.
        - by rewrite list_lookup_fmap, Hi0. }
      subst i'. congruence.
Qed.

End DualGraph.

Section Idempotence.
Context {A : Arith} {B : LinearBackend}.

(** C3, as the code has it.  When [optimize] converges to [{values,
    duals}] with non-empty duals, every constraint has a dual key of its
    own and the linear solve returns a vector exactly for the variables of
    its graph, a second call from [{values, duals}] with the warm-start flag
    on converges in its first iteration and returns the same [{values,
    duals}]. *)
Theorem optimize_warm_restart_idempotent (qp : QP) (fuel : nat)
    (x0 d0 : VectorValues) (w : bool) (σ σ1 : Store) (v d : VectorValues) :
  solves_graph_variables B ->
  dual_keys_unique qp ->
  optimize qp fuel x0 d0 w σ = Some (Ok (v, d, σ1)) ->
  (0 < vv_size d)%nat ->
  forall (σ2 : Store) (fuel' : nat),
    exists σ3, optimize qp (S fuel') v d true σ2 = Some (Ok (v, d, σ3)).
Proof.
  intros Hsolver Hunique Hfirst Hsize σ2 fuel'.
  unfold optimize in Hfirst. rewrite identifyActiveConstraints_flags in Hfirst.
  destruct (mapM (initial_flag x0 d0 w) (inequalities qp)) as [flags|] eqn:Hflags;
    simpl in Hfirst; [|done].
  set (refs := seq (length σ) (length (inequalities qp))) in *.
  set (ws0 := zip_with set_flag flags (inequalities qp)) in *.
  set (state0 := mkQPState x0 d0 refs false 0) in *.
  destruct (main_loop qp fuel state0 (σ ++ ws0)) as [[[final σf]|]|] eqn:Hloop;
    [|done|done].
  injection Hfirst as <- <- <-.
  assert (Hlen : length ws0 = length (inequalities qp)).
  { unfold ws0. rewrite length_zip_with.
    destruct (mapM_Ok_lookup _ _ _ Hflags) as [Hl _]. lia. }
  assert (Hinv0 : run_invariant (inequalities qp) refs state0 (σ ++ ws0)).
  { split; [done|]. exists ws0. split.
    - unfold refs. rewrite <- Hlen. apply readGraph_fresh.
    - unfold ws0. destruct (mapM_Ok_lookup _ _ _ Hflags) as [Hl _].
      clear -Hl. revert flags Hl.
      induction (inequalities qp) as [|f l IH]; intros [|b flags] Hl; simpl in *;
        try done.
      constructor; [apply same_rows_set_flag|]. apply IH. lia. }
  destruct (main_loop_final qp _ refs fuel state0 _ final σf Hloop eq_refl Hinv0)
    as (state' & σ' & [Hrefs (ws & Hread & Hrows)] & Hlast & Hconv).
  rewrite <- Hrefs in Hread.
  destruct (iterate_converged qp state' final σ' σf ws Hread Hlast Hconv)
    as (dg & leaving & Hsolve & Hbuild & Hopt & Hleave & Hneg & _).
  exists (σ2 ++ ws).
  eapply warm_restart; try done.
  eapply duals_mark_active_constraints; try done.
  intros k. by apply Hsolver.
Qed.

End Idempotence.

(** The linear solver of [Scalar] returns a value for each variable of its
    graph. *)
Lemma scalar_solve_keys_dom (rows : list Scalar.Row) (ks : list Key) :
  forall sol, Scalar.solve_keys rows ks = Ok sol ->
    forall k, is_Some (sol !! k) <-> k ∈ ks.
Proof.
  induction ks as [|k0 ks IH]; intros sol Hsol k; simpl in Hsol.
  - injection Hsol as <-. rewrite lookup_empty. split.
    + by intros [? ?].
    + intros H. by apply elem_of_nil in H.
  - destruct (Scalar.solve_key rows k0) as [x|]; simpl in Hsol; [|done].
    destruct (Scalar.solve_keys rows ks) as [sol'|]; simpl in Hsol; [|done].
    injection Hsol as <-. rewrite elem_of_cons, <- (IH sol' eq_refl).
    destruct (decide (k0 = k)) as [->|Hne].
    + rewrite lookup_insert_eq. split; [by left|eauto].
    + rewrite lookup_insert_ne by done. split; [by right|].
      intros [H | H]; [congruence|done].
Qed.

Lemma scalar_row_of_keys (f : GaussianFactor Scalar.ScalarCost) (r : Scalar.Row) :
  Scalar.row_of f = Ok r -> factor_keys f = [Scalar.row_key r].
Proof.
  destruct f as [c|e|f|j]; simpl.
  - by intros [= <-].
  - destruct (eq_terms e) as [|[k [|[|a [|? ?]] [|? ?]]] [|? ?]]; try done.
    destruct (eq_b e) as [|b [|? ?]]; try done. by intros [= <-].
  - destruct (terms f) as [|[k [|a [|? ?]]] [|? ?]]; try done. by intros [= <-].
  - destruct (jac_terms j) as [|[k [|[|a [|? ?]] [|? ?]]] [|? ?]]; try done.
    destruct (jac_b j) as [|b [|? ?]]; try done. by intros [= <-].
Qed.

Lemma scalar_solves_graph_variables : solves_graph_variables Scalar.backend.
Proof.
  intros g sol k Hsol. simpl in Hsol. unfold Scalar.scalar_optimize in Hsol.
  destruct (mapM Scalar.row_of g) as [rows|] eqn:Hrows; simpl in Hsol; [|done].
  rewrite (scalar_solve_keys_dom _ _ _ Hsol k).
  assert (Hkeys : graph_keys g = Scalar.row_key <$> rows).
  { clear Hsol. revert rows Hrows.
    induction g as [|f g IH]; intros rows Hrows.
    - by injection Hrows as <-.
    - rewrite mapM_cons in Hrows.
      destruct (Scalar.row_of f) as [r|] eqn:Hr; simpl in Hrows; [|done].
      destruct (mapM Scalar.row_of g) as [rows'|]; simpl in Hrows; [|done].
      injection Hrows as <-. unfold graph_keys in *. rewrite !fmap_cons.
      cbn [concat].
      by rewrite (scalar_row_of_keys f r Hr), (IH rows' eq_refl). }
  by rewrite Hkeys.
Qed.

Section WarmStartWithoutDuals.
Context {A : Arith} {B : LinearBackend}.

(** C9.  A warm start with an empty [duals] container is a cold start.
    With the flag on and no duals, the working-set construction gives what
    it gives with the flag off.  The violation [v] of every constraint is
    evaluated at the initial point: when one of them is strictly positive,
    [InfeasibleInitialValues] is raised by the construction and by
    [optimize], before any iteration; when none is, a working set is
    returned in which the copy of a constraint is active exactly when
    [|v| < 1e-7]. *)
Theorem warm_start_without_duals_is_cold_start (qp : QP) (x0 : VectorValues)
    (σ : Store) :
  (forall f, f ∈ inequalities qp -> exists v, error f x0 = Ok v) ->
  (forall d, identifyActiveConstraints (inequalities qp) x0 ∅ true σ
             = identifyActiveConstraints (inequalities qp) x0 d false σ) /\
  ((exists f v, f ∈ inequalities qp /\ error f x0 = Ok v /\ 0 < v) ->
     identifyActiveConstraints (inequalities qp) x0 ∅ true σ
       = Raise InfeasibleInitialValues /\
     forall fuel, optimize qp fuel x0 ∅ true σ
                  = Some (Raise InfeasibleInitialValues)) /\
  ((forall f v, f ∈ inequalities qp -> error f x0 = Ok v -> v <= 0) ->
     exists ws σ',
       identifyActiveConstraints (inequalities qp) x0 ∅ true σ = Ok (ws, σ') /\
       forall i f, inequalities qp !! i = Some f ->
         exists v l g,
           error f x0 = Ok v /\ ws !! i = Some l /\ σ' !! l = Some g /\
           same_rows g f /\ active g = Qlt_bool (Qabs v) tol7).
Proof.
  intros Hdef.
  assert (Hsame : forall d,
            identifyActiveConstraints (inequalities qp) x0 ∅ true σ
            = identifyActiveConstraints (inequalities qp) x0 d false σ).
  { intros d. rewrite !identifyActiveConstraints_flags.
    by rewrite (mapM_pointwise _ _ _ (initial_flag_no_duals x0 d)). }
  split; [done|]. split.
  - intros Hpos.
    assert (Hraise : identifyActiveConstraints (inequalities qp) x0 ∅ true σ
                     = Raise InfeasibleInitialValues).
    { rewrite (Hsame ∅), identifyActiveConstraints_flags.
      by rewrite mapM_initial_flag_infeasible; [|left|..]. }
    split; [done|]. intros fuel. unfold optimize. by rewrite Hraise.
  - intros Hfeas. rewrite (Hsame ∅).
    destruct (identifyActiveConstraints_cold_start_total (inequalities qp) x0 ∅ σ)
      as (ws & σ' & Hrun).
    { intros f Hf. destruct (Hdef f Hf) as [v Hv]. exists v. split; [done|].
      by eapply Hfeas. }
    exists ws, σ'. split; [done|].
    rewrite identifyActiveConstraints_flags in Hrun.
    destruct (mapM _ (inequalities qp)) as [flags|e] eqn:Hflags;
      simpl in Hrun; [|done].
    injection Hrun as <- <-.
    destruct (mapM_Ok_lookup _ _ _ Hflags) as [Hlen Hlook].
    intros i f Hi. destruct (Hlook i f Hi) as (c & Hc & Hflag).
    destruct (Hdef f) as [v Hv]; [by eapply list_elem_of_lookup_2|].
    rewrite (initial_flag_cold _ _ _ _ Hv) in Hflag.
    destruct (Qlt_bool 0 v); [done|]. injection Hflag as <-.
    exists v, (length σ + i)%nat, (set_flag (Qlt_bool (Qabs v) tol7) f).
    split; [done|]. split.
    { apply lookup_seq. split; [done|]. by eapply lookup_lt_Some. }
    split.
    { rewrite lookup_app_r by lia.
      replace (length σ + i - length σ)%nat with i by lia.
      rewrite lookup_zip_with, Hc. simpl. by rewrite Hi. }
    split; [apply same_rows_set_flag|]. by destruct (Qlt_bool _ _).
Qed.

End WarmStartWithoutDuals.

Lemma exact_does_not_round : exact_arithmetic exact.
Proof. repeat split; intros x y; reflexivity. Qed.

(** ** The properties on concrete problems *)

(** C6, as stated, fails on the values: with the constraint [x <= 5e-8]
    active at [x = 0], the solve gives [x = 5e-8], within [1e-7] of the
    current point; the constraint leaves and the state returned holds the
    solved point [5e-8], not the previous point [0]. *)
Lemma iterate_leaving_values_counterexample :
  solveWithCurrentWorkingSet Examples.tight_qp Examples.tight_store
    = Ok (Scalar.point (1 # 20000000)) /\
  vv_equals (Scalar.point (1 # 20000000)) (values Examples.tight_state) tol7 = true /\
  identifyLeavingConstraint Examples.tight_store Examples.tight_duals = Ok 0%Z /\
  iterate Examples.tight_qp Examples.tight_state Examples.tight_store
    = Ok (mkQPState (Scalar.point (1 # 20000000)) Examples.tight_duals
            [0%nat] false 1,
          [Scalar.bound 1 Examples.tight]) /\
  values Examples.tight_state !! 0%N = Some [0] /\
  ~ (1 # 20000000 == 0) /\
  Scalar.point (1 # 20000000) <> values Examples.tight_state.
Proof.
  split; [vm_compute; reflexivity|].
  split; [vm_compute; reflexivity|].
  split; [vm_compute; reflexivity|].
  split; [vm_compute; reflexivity|].
  split; [vm_compute; reflexivity|].
  split; [intros H; vm_compute in H; discriminate H|].
  intros H. apply (f_equal (fun m : VectorValues => m !! 0%N)) in H.
  vm_compute in H. discriminate H.
Qed.

(** The leaving step on the problem of the counterexample: every
    hypothesis of [iterate_drops_leaving_constraint] holds there. *)
Lemma iterate_drops_leaving_constraint_witness :
  (readGraph Examples.tight_store (workingSet Examples.tight_state)
     = Ok Examples.tight_store /\
   solveWithCurrentWorkingSet Examples.tight_qp Examples.tight_store
     = Ok (Scalar.point (1 # 20000000)) /\
   vv_equals (Scalar.point (1 # 20000000)) (values Examples.tight_state) tol7 = true /\
   identifyLeavingConstraint Examples.tight_store Examples.tight_duals = Ok 0%Z) /\
  exists i l f,
    0%Z = Z.of_nat i /\
    workingSet Examples.tight_state !! i = Some l /\
    Examples.tight_store !! l = Some f /\ active f = true /\
    iterate Examples.tight_qp Examples.tight_state Examples.tight_store
    = Ok (mkQPState (Scalar.point (1 # 20000000)) Examples.tight_duals
            (workingSet Examples.tight_state) false
            (iterations Examples.tight_state + 1),
          <[l := inactivate f]> Examples.tight_store) /\
    (NoDup (workingSet Examples.tight_state) ->
       readGraph (<[l := inactivate f]> Examples.tight_store)
         (workingSet Examples.tight_state)
       = Ok (<[i := inactivate f]> Examples.tight_store)).
Proof.
  split.
  - repeat split; vm_compute; reflexivity.
  - eapply (iterate_drops_leaving_constraint Examples.tight_qp
              Examples.tight_state Examples.tight_store Examples.tight_store
              (Scalar.point (1 # 20000000)) Examples.tight_duals).
    + vm_compute; reflexivity.
    + vm_compute; reflexivity.
    + vm_compute; reflexivity.
    + vm_compute; reflexivity.
    + vm_compute; reflexivity.
    + vm_compute; reflexivity.
    + lia.
Defined.

(** C8, as stated, fails: a step blocked by the constraint [x <= 5]
    activates it through the reference the input state holds, so the working
    set of the input state reads differently after the call. *)
Lemma iterate_mutates_input_working_set_counterexample :
  iterate Examples.blocked_qp Examples.blocked_state Examples.blocked_store
    = Ok (mkQPState (Scalar.point (50 # 10)) ∅ [0%nat] false 1,
          [activate (Scalar.bound 1 5)]) /\
  readGraph Examples.blocked_store (workingSet Examples.blocked_state)
    = Ok [Scalar.bound 1 5] /\
  readGraph [activate (Scalar.bound 1 5)] (workingSet Examples.blocked_state)
    = Ok [activate (Scalar.bound 1 5)] /\
  readGraph [activate (Scalar.bound 1 5)] (workingSet Examples.blocked_state)
    <> readGraph Examples.blocked_store (workingSet Examples.blocked_state).
Proof.
  split; [vm_compute; reflexivity|]. split; [vm_compute; reflexivity|].
  split; [vm_compute; reflexivity|]. intros H. vm_compute in H. discriminate H.
Qed.

(** The blocked step, as [iterate_flips_one_flag_in_place] describes it. *)
Lemma iterate_flips_one_flag_in_place_witness :
  iterate Examples.blocked_qp Examples.blocked_state Examples.blocked_store
    = Ok (Inputs.stepped_state, Inputs.solved_store) /\
  (workingSet Inputs.stepped_state = workingSet Examples.blocked_state /\
   exists ws nv,
     readGraph Examples.blocked_store (workingSet Examples.blocked_state) = Ok ws /\
     solveWithCurrentWorkingSet Examples.blocked_qp ws = Ok nv /\
     ((vv_equals nv (values Examples.blocked_state) tol7 = true /\
       exists leaving,
         identifyLeavingConstraint ws (duals Inputs.stepped_state) = Ok leaving /\
         (((leaving < 0)%Z /\ Inputs.solved_store = Examples.blocked_store) \/
          (exists i l f,
             leaving = Z.of_nat i /\
             workingSet Examples.blocked_state !! i = Some l /\
             Examples.blocked_store !! l = Some f /\ active f = true /\
             Inputs.solved_store = <[l := inactivate f]> Examples.blocked_store))) \/
      (vv_equals nv (values Examples.blocked_state) tol7 = false /\
       exists p alpha ix,
         vv_sub nv (values Examples.blocked_state) = Ok p /\
         computeStepSize ws (values Examples.blocked_state) p = Ok (alpha, ix) /\
         ((ix = (-1)%Z /\ Inputs.solved_store = Examples.blocked_store) \/
          (exists i l f,
             ix = Z.of_nat i /\
             workingSet Examples.blocked_state !! i = Some l /\
             Examples.blocked_store !! l = Some f /\ active f = false /\
             Inputs.solved_store = <[l := activate f]> Examples.blocked_store))))).
Proof.
  assert (Hrun : iterate Examples.blocked_qp Examples.blocked_state
                   Examples.blocked_store
                 = Ok (Inputs.stepped_state, Inputs.solved_store)).
  { vm_compute; reflexivity. }
  split; [exact Hrun|].
  exact (iterate_flips_one_flag_in_place Examples.blocked_qp
           Examples.blocked_state Inputs.stepped_state
           Examples.blocked_store Inputs.solved_store Hrun).
Defined.

(** The ratio test at [x = 0], [p = 10], constraint [x <= 5], in the
    arithmetic that does not round. *)
Lemma computeStepSize_ratio_capped_witness :
  (active (Scalar.bound 1 5) = false /\
   dotProductRow (Scalar.bound 1 5) (Scalar.point 10) = Ok 10 /\
   dotProductRow (Scalar.bound 1 5) (Scalar.point 0) = Ok 0 /\
   0 < 10 /\
   exact_arithmetic exact /\
   hasSameStructure (Scalar.point 0) (Scalar.point 10) = true /\
   fdiv (fsub 5 0) 10 < 1) /\
  ((fdiv (fsub 5 0) 10 < 1 ->
      computeStepSize ([] ++ Scalar.bound 1 5 :: []) (Scalar.point 0) (Scalar.point 10)
        = Ok (fdiv (fsub 5 0) 10, Z.of_nat (length (@nil LinearInequality)))) /\
   (1 <= fdiv (fsub 5 0) 10 ->
      computeStepSize ([] ++ Scalar.bound 1 5 :: []) (Scalar.point 0) (Scalar.point 10)
        = Ok (1, (-1)%Z)) /\
   (exact_arithmetic exact ->
    hasSameStructure (Scalar.point 0) (Scalar.point 10) = true ->
    fdiv (fsub 5 0) 10 < 1 ->
      exists y aTy,
        vv_add (Scalar.point 0) (vv_scale (fdiv (fsub 5 0) 10) (Scalar.point 10)) = Ok y /\
        dotProductRow (Scalar.bound 1 5) y = Ok aTy /\ aTy == 5)).
Proof.
  split.
  - split; [reflexivity|]. split; [vm_compute; reflexivity|].
    split; [vm_compute; reflexivity|]. split; [reflexivity|].
    split; [exact exact_does_not_round|]. split; [vm_compute; reflexivity|].
    reflexivity.
  - apply (computeStepSize_ratio_capped [] [] (Scalar.bound 1 5)
             (Scalar.point 0) (Scalar.point 10) 10 0).
    + constructor.
    + constructor.
    + reflexivity.
    + vm_compute; reflexivity.
    + vm_compute; reflexivity.
    + reflexivity.
Defined.

(** With rounding the new point can miss the bound: under [x <= 1], from
    [x = 0] along [p = 49], the step length is the [double] nearest to
    [1/49] and the new point is [0.9999999999999999]. *)
Lemma binary64_step_misses_bound :
  computeStepSize (A := binary64) [Scalar.bound 1 1] (Scalar.point 0) (Scalar.point 49)
    = Ok (5882252574524729 # 288230376151711744, 0%Z) /\
  vv_add (A := binary64) (Scalar.point 0)
    (vv_scale (A := binary64) (5882252574524729 # 288230376151711744) (Scalar.point 49))
    = Ok (Scalar.point (9007199254740991 # 9007199254740992)) /\
  dotProductRow (A := binary64) (Scalar.bound 1 1)
    (Scalar.point (9007199254740991 # 9007199254740992))
    = Ok (9007199254740991 # 9007199254740992) /\
  ~ (9007199254740991 # 9007199254740992 == 1).
Proof.
  split; [vm_compute; reflexivity|]. split; [vm_compute; reflexivity|].
  split; [vm_compute; reflexivity|]. intros H. vm_compute in H. discriminate H.
Qed.

(** With rounding the new point can pass the bound: under [x <= 7], from
    [x = 0] along [p = 25], the step length is the [double] nearest to
    [7/25] and the new point is [7.000000000000001]. *)
Lemma binary64_step_passes_bound :
  computeStepSize (A := binary64) [Scalar.bound 1 7] (Scalar.point 0) (Scalar.point 25)
    = Ok (1261007895663739 # 4503599627370496, 0%Z) /\
  vv_add (A := binary64) (Scalar.point 0)
    (vv_scale (A := binary64) (1261007895663739 # 4503599627370496) (Scalar.point 25))
    = Ok (Scalar.point (7881299347898369 # 1125899906842624)) /\
  error (A := binary64) (Scalar.bound 1 7)
    (Scalar.point (7881299347898369 # 1125899906842624))
    = Ok (1 # 1125899906842624) /\
  0 < 1 # 1125899906842624.
Proof.
  split; [vm_compute; reflexivity|]. split; [vm_compute; reflexivity|].
  split; [vm_compute; reflexivity|]. reflexivity.
Qed.

(** The leaving constraint on the duals of [Examples.tight_duals]. *)
Lemma identifyLeavingConstraint_largest_positive_witness :
  (forall f, f ∈ Examples.tight_store -> active f = true ->
     exists l, multiplier Examples.tight_duals f = Ok l) /\
  exists ix, identifyLeavingConstraint Examples.tight_store Examples.tight_duals = Ok ix /\
    ((ix = (-1)%Z /\ none_above Examples.tight_duals Examples.tight_store 0) \/
     (exists i l, ix = Z.of_nat i /\ 0 < l /\
        first_largest Examples.tight_duals Examples.tight_store i l)).
Proof.
  assert (Hdef : forall f, f ∈ Examples.tight_store -> active f = true ->
            exists l, multiplier Examples.tight_duals f = Ok l).
  { intros f Hf _. apply list_elem_of_singleton in Hf as ->.
    eexists. vm_compute. reflexivity. }
  split; [exact Hdef|].
  exact (identifyLeavingConstraint_largest_positive
           Examples.tight_store Examples.tight_duals Hdef).
Defined.



(** The scenario of the infeasible start: [x <= 0] from [x = 1]. *)
Lemma optimize_infeasible_initial_values_witness :
  ((false = false \/ (∅ : VectorValues) = ∅) /\
   (forall f, f ∈ inequalities (Scalar.problem 10 1 0) ->
      exists v, error f (Scalar.point 1) = Ok v) /\
   (exists f v, f ∈ inequalities (Scalar.problem 10 1 0) /\
      error f (Scalar.point 1) = Ok v /\ 0 < v)) /\
  (identifyActiveConstraints (inequalities (Scalar.problem 10 1 0))
     (Scalar.point 1) ∅ false []
   = Raise InfeasibleInitialValues /\
   forall fuel, optimize (Scalar.problem 10 1 0) fuel (Scalar.point 1) ∅ false []
                = Some (Raise InfeasibleInitialValues)).
Proof.
  assert (Hdef : forall f, f ∈ inequalities (Scalar.problem 10 1 0) ->
            exists v, error f (Scalar.point 1) = Ok v).
  { intros f Hf. apply list_elem_of_singleton in Hf as ->.
    eexists. vm_compute. reflexivity. }
  assert (Hpos : exists f v, f ∈ inequalities (Scalar.problem 10 1 0) /\
            error f (Scalar.point 1) = Ok v /\ 0 < v).
  { exists (Scalar.bound 1 0), (0 + (1 * 1 + 0) - 0).
    split; [apply list_elem_of_singleton; reflexivity|].
    split; [reflexivity|]. reflexivity. }
  split; [exact (conj (or_introl eq_refl) (conj Hdef Hpos))|].
  exact (optimize_infeasible_initial_values (Scalar.problem 10 1 0)
           (Scalar.point 1) ∅ false [] (or_introl eq_refl) Hdef Hpos).
Defined.

(** A cold start at [x = 0] with [x <= 5e-8], [x <= 5] and [x <= T],
    where [T] is the [double] [1e-7]: the first is activated, the second is
    not, and neither is the third, whose violation [-T] is not within the
    tolerance. *)
Lemma identifyActiveConstraints_cold_start_flags_witness :
  identifyActiveConstraints
    [Scalar.bound 1 Examples.tight; Scalar.bound 1 5; Scalar.bound 1 tol7]
    (Scalar.point 0) ∅ false []
  = Ok ([0%nat; 1%nat; 2%nat],
        [activate (Scalar.bound 1 Examples.tight); Scalar.bound 1 5;
         Scalar.bound 1 tol7]) /\
  (length [0%nat; 1%nat; 2%nat]
   = length [Scalar.bound 1 Examples.tight; Scalar.bound 1 5; Scalar.bound 1 tol7] /\
   forall i f,
     [Scalar.bound 1 Examples.tight; Scalar.bound 1 5; Scalar.bound 1 tol7] !! i
     = Some f ->
     exists v l g,
       error f (Scalar.point 0) = Ok v /\ v <= 0 /\
       [0%nat; 1%nat; 2%nat] !! i = Some l /\
       [activate (Scalar.bound 1 Examples.tight); Scalar.bound 1 5;
        Scalar.bound 1 tol7] !! l = Some g /\
       terms g = terms f /\ getb g = getb f /\ dualKey g = dualKey f /\
       (Qabs v < tol7 -> active g = true) /\
       (v <= - tol7 -> active g = false)).
Proof.
  assert (Hrun : identifyActiveConstraints
                   [Scalar.bound 1 Examples.tight; Scalar.bound 1 5;
                    Scalar.bound 1 tol7]
                   (Scalar.point 0) ∅ false []
                 = Ok ([0%nat; 1%nat; 2%nat],
                       [activate (Scalar.bound 1 Examples.tight); Scalar.bound 1 5;
                        Scalar.bound 1 tol7])).
  { vm_compute; reflexivity. }
  split; [exact Hrun|].
  exact (identifyActiveConstraints_cold_start_flags _ _ _ _ _ _ Hrun).
Defined.

(** The warm start without duals on the scenario of the infeasible start,
    [x <= 0] from [x = 1], and on the blocked problem, [x <= 5] from
    [x = 0]. *)
Lemma warm_start_without_duals_is_cold_start_witness :
  ((forall f, f ∈ inequalities (Scalar.problem 10 1 0) ->
      exists v, error f (Scalar.point 1) = Ok v) /\
   (exists f v, f ∈ inequalities (Scalar.problem 10 1 0) /\
      error f (Scalar.point 1) = Ok v /\ 0 < v) /\
   (forall d, identifyActiveConstraints (inequalities (Scalar.problem 10 1 0))
                (Scalar.point 1) ∅ true []
              = identifyActiveConstraints (inequalities (Scalar.problem 10 1 0))
                  (Scalar.point 1) d false []) /\
   ((exists f v, f ∈ inequalities (Scalar.problem 10 1 0) /\
       error f (Scalar.point 1) = Ok v /\ 0 < v) ->
      identifyActiveConstraints (inequalities (Scalar.problem 10 1 0))
        (Scalar.point 1) ∅ true []
        = Raise InfeasibleInitialValues /\
      forall fuel, optimize (Scalar.problem 10 1 0) fuel (Scalar.point 1) ∅ true []
                   = Some (Raise InfeasibleInitialValues)) /\
   ((forall f v, f ∈ inequalities (Scalar.problem 10 1 0) ->
       error f (Scalar.point 1) = Ok v -> v <= 0) ->
      exists ws σ',
        identifyActiveConstraints (inequalities (Scalar.problem 10 1 0))
          (Scalar.point 1) ∅ true [] = Ok (ws, σ') /\
        forall i f, inequalities (Scalar.problem 10 1 0) !! i = Some f ->
          exists v l g,
            error f (Scalar.point 1) = Ok v /\ ws !! i = Some l /\
            σ' !! l = Some g /\ same_rows g f /\
            active g = Qlt_bool (Qabs v) tol7)) /\
  ((forall f, f ∈ inequalities Examples.blocked_qp ->
      exists v, error f (Scalar.point 0) = Ok v) /\
   (forall f v, f ∈ inequalities Examples.blocked_qp ->
      error f (Scalar.point 0) = Ok v -> v <= 0) /\
   (forall d, identifyActiveConstraints (inequalities Examples.blocked_qp)
                (Scalar.point 0) ∅ true []
              = identifyActiveConstraints (inequalities Examples.blocked_qp)
                  (Scalar.point 0) d false []) /\
   ((exists f v, f ∈ inequalities Examples.blocked_qp /\
       error f (Scalar.point 0) = Ok v /\ 0 < v) ->
      identifyActiveConstraints (inequalities Examples.blocked_qp)
        (Scalar.point 0) ∅ true []
        = Raise InfeasibleInitialValues /\
      forall fuel, optimize Examples.blocked_qp fuel (Scalar.point 0) ∅ true []
                   = Some (Raise InfeasibleInitialValues)) /\
   ((forall f v, f ∈ inequalities Examples.blocked_qp ->
       error f (Scalar.point 0) = Ok v -> v <= 0) ->
      exists ws σ',
        identifyActiveConstraints (inequalities Examples.blocked_qp)
          (Scalar.point 0) ∅ true [] = Ok (ws, σ') /\
        forall i f, inequalities Examples.blocked_qp !! i = Some f ->
          exists v l g,
            error f (Scalar.point 0) = Ok v /\ ws !! i = Some l /\
            σ' !! l = Some g /\ same_rows g f /\
            active g = Qlt_bool (Qabs v) tol7)).
Proof.
  assert (Hdef : forall f, f ∈ inequalities (Scalar.problem 10 1 0) ->
            exists v, error f (Scalar.point 1) = Ok v).
  { intros f Hf. apply list_elem_of_singleton in Hf as ->.
    eexists. vm_compute. reflexivity. }
  assert (Hpos : exists f v, f ∈ inequalities (Scalar.problem 10 1 0) /\
            error f (Scalar.point 1) = Ok v /\ 0 < v).
  { exists (Scalar.bound 1 0), (0 + (1 * 1 + 0) - 0).
    split; [apply list_elem_of_singleton; reflexivity|].
    split; reflexivity. }
  assert (Hdef' : forall f, f ∈ inequalities Examples.blocked_qp ->
            exists v, error f (Scalar.point 0) = Ok v).
  { intros f Hf. apply list_elem_of_singleton in Hf as ->.
    eexists. vm_compute. reflexivity. }
  assert (Hneg : forall f v, f ∈ inequalities Examples.blocked_qp ->
            error f (Scalar.point 0) = Ok v -> v <= 0).
  { intros f v Hf Hv. apply list_elem_of_singleton in Hf as ->.
    vm_compute in Hv. injection Hv as <-. intros H. discriminate H. }
  split.
  - split; [exact Hdef|]. split; [exact Hpos|].
    exact (warm_start_without_duals_is_cold_start (Scalar.problem 10 1 0)
             (Scalar.point 1) [] Hdef).
  - split; [exact Hdef'|]. split; [exact Hneg|].
    exact (warm_start_without_duals_is_cold_start Examples.blocked_qp
             (Scalar.point 0) [] Hdef').
Defined.



(** C3, as stated, fails: with the minimum on the bound [x <= 5] the run
    from [x = 0] converges to [x = 5] with no constraint active and empty
    duals; the second call, warm start on, falls back to the cold start,
    activates the constraint and returns the multiplier [0] for it: the
    duals are not the ones it was given. *)
Lemma optimize_idempotence_counterexample :
  optimize Examples.touching_qp 2 (Scalar.point 0) ∅ false []
  = Some (Ok (Scalar.point 5, ∅, [Scalar.bound 1 5])) /\
  optimize Examples.touching_qp 1 (Scalar.point 5) ∅ true []
  = Some (Ok (Scalar.point 5, {[ 1%N := [0] ]}, [activate (Scalar.bound 1 5)])) /\
  ({[ 1%N := [0] ]} : VectorValues) <> ∅.
Proof.
  split; [vm_compute; reflexivity|]. split; [vm_compute; reflexivity|].
  intros H. apply (f_equal (fun m : VectorValues => m !! 1%N)) in H.
  vm_compute in H. discriminate H.
Qed.

(** The blocked problem converges to [x = 5] with the multiplier [-5];
    restarting from there gives the same result. *)
Lemma optimize_warm_restart_idempotent_witness :
  (dual_keys_unique Examples.blocked_qp /\
   optimize Examples.blocked_qp 5 (Scalar.point 0) ∅ false []
   = Some (Ok (Scalar.point 5, {[ 1%N := [-5] ]}, [activate (Scalar.bound 1 5)])) /\
   (0 < vv_size ({[ 1%N := [(-5)%Q] ]} : VectorValues))%nat) /\
  forall (σ2 : Store) (fuel' : nat),
    exists σ3, optimize Examples.blocked_qp (S fuel') (Scalar.point 5)
                 {[ 1%N := [-5] ]} true σ2
               = Some (Ok (Scalar.point 5, {[ 1%N := [-5] ]}, σ3)).
Proof.
  assert (Hunique : dual_keys_unique Examples.blocked_qp).
  { split; [|split].
    - simpl. apply NoDup_singleton.
    - intros e f He. by apply elem_of_nil in He.
    - intros f Hf. apply list_elem_of_singleton in Hf as ->. done. }
  assert (Hrun : optimize Examples.blocked_qp 5 (Scalar.point 0) ∅ false []
                 = Some (Ok (Scalar.point 5, {[ 1%N := [-5] ]},
                             [activate (Scalar.bound 1 5)]))).
  { vm_compute; reflexivity. }
  assert (Hsize : (0 < vv_size ({[ 1%N := [(-5)%Q] ]} : VectorValues))%nat).
  { vm_compute. lia. }
  split; [exact (conj Hunique (conj Hrun Hsize))|].
  exact (optimize_warm_restart_idempotent Examples.blocked_qp 5 (Scalar.point 0)
           ∅ false [] _ _ _ scalar_solves_graph_variables Hunique Hrun Hsize).
Defined.


(** * Further properties of the solver *)

(** ** The ratio test (QPSolver.cpp:129-166) *)

Section RatioOrder.
Context {A : Arith}.

(** A constraint that cannot block leaves the scan where it was. *)
Lemma first_blocking_skip (f : LinearInequality) (ws : list LinearInequality)
    (xk p : VectorValues) (m : Q) :
  (forall a, ~ blocks_at (f :: ws) xk p 0 a) ->
  ((forall j a, blocks_at ws xk p j a -> m <= a) ->
   forall j a, blocks_at (f :: ws) xk p j a -> m <= a) /\
  (forall i alpha, first_blocking ws xk p i alpha ->
     first_blocking (f :: ws) xk p (S i) alpha).
Proof.
  intros Hno. split.
  - intros Hall [|j] a Hb; [by apply Hno in Hb|]. by apply (Hall j).
  - intros i alpha [Hb Hmin]. split; [done|].
    intros [|j] a Hj; [by apply Hno in Hj|].
    destruct (Hmin j a Hj) as [Hle Hlt]. split; [done|]. intros ?. apply Hlt. lia.
Qed.

Lemma computeStepSize_from_first (xk p : VectorValues) ws :
  forall n minAlpha closest,
    rows_defined ws xk p ->
    exists alpha ix,
      computeStepSize_from ws xk p n minAlpha closest = Ok (alpha, ix) /\
      ((alpha = minAlpha /\ ix = closest /\
        forall j a, blocks_at ws xk p j a -> minAlpha <= a) \/
       (exists i, ix = Z.of_nat (n + i) /\ alpha < minAlpha /\
                  first_blocking ws xk p i alpha)).
Proof.
  induction ws as [|f ws IH]; intros n minAlpha closest Hdef; simpl.
  - exists minAlpha, closest. split; [done|]. left. repeat split.
    intros j a (g & ? & ? & Hj & _). by rewrite lookup_nil in Hj.
  - assert (Hdef' : rows_defined ws xk p).
    { intros g Hg. apply Hdef. by right. }
    assert (Hskip : (forall a, ~ blocks_at (f :: ws) xk p 0 a) ->
              exists alpha ix,
                computeStepSize_from ws xk p (S n) minAlpha closest = Ok (alpha, ix) /\
                ((alpha = minAlpha /\ ix = closest /\
                  forall j a, blocks_at (f :: ws) xk p j a -> minAlpha <= a) \/
                 (exists i, ix = Z.of_nat (n + i) /\ alpha < minAlpha /\
                            first_blocking (f :: ws) xk p i alpha))).
    { intros Hno. destruct (first_blocking_skip f ws xk p minAlpha Hno) as [Hs1 Hs2].
      destruct (IH (S n) minAlpha closest Hdef') as (alpha & ix & Hrun & Hcase).
      exists alpha, ix. split; [done|].
      destruct Hcase as [(-> & -> & Hall) | (i & -> & Hlt & Hfirst)].
      - left. repeat split. by apply Hs1.
      - right. exists (S i). split; [f_equal; lia|]. split; [done|]. by apply Hs2. }
    destruct (active f) eqn:Hact; simpl.
    { apply Hskip. intros a Hb. apply blocks_at_cons_0 in Hb as [Hb _]. congruence. }
    destruct (Hdef f) as [[aTp HaTp] [aTx HaTx]]; [by left|done|].
    rewrite HaTp. simpl.
    destruct (Qle_bool aTp 0) eqn:Hsign.
    { apply Qle_bool_iff in Hsign. apply Hskip. intros a Hb.
      apply blocks_at_cons_0 in Hb as (_ & aTp' & aTx' & Hp' & Hpos & _).
      rewrite HaTp in Hp'. injection Hp' as <-. lra. }
    apply Qle_bool_false in Hsign. rewrite HaTx. simpl.
    set (r := fdiv (fsub (getb f) aTx) aTp).
    assert (Hhere : blocks_at (f :: ws) xk p 0 r).
    { apply blocks_at_cons_0. split; [done|]. by exists aTp, aTx. }
    assert (Honly : forall a, blocks_at (f :: ws) xk p 0 a -> a = r).
    { intros a Hb. apply blocks_at_cons_0 in Hb as (_ & aTp' & aTx' & Hp' & _ & Hx' & ->).
      rewrite HaTp in Hp'. injection Hp' as <-.
      rewrite HaTx in Hx'. by injection Hx' as <-. }
    destruct (Qlt_bool r minAlpha) eqn:Hcmp.
    + apply Qlt_bool_iff in Hcmp.
      destruct (IH (S n) r (Z.of_nat n) Hdef') as (alpha & ix & Hrun & Hcase).
      exists alpha, ix. split; [done|]. right.
      destruct Hcase as [(-> & -> & Hall) | (i & -> & Hlt & Hb & Hmin)].
      * exists 0%nat. split; [f_equal; lia|]. split; [done|]. split; [done|].
        intros [|j] a Hj.
        -- rewrite (Honly a Hj). split; [lra|lia].
        -- split; [by apply (Hall j)|lia].
      * exists (S i). split; [f_equal; lia|]. split; [lra|]. split; [done|].
        intros [|j] a Hj.
        -- rewrite (Honly a Hj). split; [lra|]. intros _. done.
        -- destruct (Hmin j a Hj) as [Hle Hlt']. split; [done|].
           intros ?. apply Hlt'. lia.
    + apply Qlt_bool_false in Hcmp.
      destruct (IH (S n) minAlpha closest Hdef') as (alpha & ix & Hrun & Hcase).
      exists alpha, ix. split; [done|].
      destruct Hcase as [(-> & -> & Hall) | (i & -> & Hlt & Hb & Hmin)].
      * left. repeat split. intros [|j] a Hj.
        -- by rewrite (Honly a Hj).
        -- by apply (Hall j).
      * right. exists (S i). split; [f_equal; lia|]. split; [done|]. split; [done|].
        intros [|j] a Hj.
        -- rewrite (Honly a Hj). split; [lra|]. intros _. lra.
        -- destruct (Hmin j a Hj) as [Hle Hlt']. split; [done|].
           intros ?. apply Hlt'. lia.
Qed.

(** X1.  The ratio test returns the full step [1.0] with the sentinel [-1]
    exactly when none of the ratios it computes is below [1.0]; else it
    returns a step below [1.0] with the index of the first constraint whose
    computed ratio is the least.  The ratios are compared as the source
    computes them, rounded. *)
Theorem computeStepSize_first_minimum (ws : list LinearInequality)
    (xk p : VectorValues) :
  rows_defined ws xk p ->
  exists alpha ix,
    computeStepSize ws xk p = Ok (alpha, ix) /\
    ((ix = (-1)%Z /\ alpha = 1 /\
      forall j a, blocks_at ws xk p j a -> 1 <= a) \/
     (exists i, ix = Z.of_nat i /\ alpha < 1 /\ first_blocking ws xk p i alpha)).
Proof.
  intros Hdef.
  destruct (computeStepSize_from_first xk p ws 0 1 (-1)%Z Hdef)
    as (alpha & ix & Hrun & Hcase).
  exists alpha, ix. split; [done|].
  destruct Hcase as [(-> & -> & Hall) | (i & -> & Hlt & Hfirst)].
  - by left.
  - right. by exists i.
Qed.

End RatioOrder.

(** ** The leaving constraint (QPSolver.cpp:93-111) *)

(** A scan that returns has read the multiplier of every active
    constraint. *)
Lemma identifyLeavingConstraint_from_defined (lambdas : VectorValues) ws :
  forall n worst maxLambda ix,
    identifyLeavingConstraint_from ws lambdas n worst maxLambda = Ok ix ->
    forall f, f ∈ ws -> active f = true -> exists l, multiplier lambdas f = Ok l.
Proof.
  induction ws as [|f ws IH]; intros n worst maxLambda ix Hrun g Hg Hact.
  - by apply elem_of_nil in Hg.
  - simpl in Hrun. apply elem_of_cons in Hg as [-> | Hg].
    + rewrite Hact in Hrun. unfold multiplier.
      destruct (vv_at lambdas (dualKey f)) as [v|]; simpl in *; [|done].
      destruct (first_component v) as [l|]; simpl in *; [|done]. by exists l.
    + destruct (active f).
      * destruct (vv_at lambdas (dualKey f)) as [v|]; simpl in Hrun; [|done].
        destruct (first_component v) as [l|]; simpl in Hrun; [|done].
        destruct (Qlt_bool maxLambda l); by eapply IH.
      * by eapply IH.
Qed.

Lemma identifyLeavingConstraint_from_missing (lambdas : VectorValues)
    (f : LinearInequality) (post : list LinearInequality) pre :
  forall n worst maxLambda,
    (forall g, g ∈ pre -> active g = true -> exists l, multiplier lambdas g = Ok l) ->
    active f = true ->
    lambdas !! dualKey f = None ->
    identifyLeavingConstraint_from (pre ++ f :: post) lambdas n worst maxLambda
    = Raise OutOfRange.
Proof.
  induction pre as [|g pre IH]; intros n worst maxLambda Hpre Hact Hmiss; simpl.
  - rewrite Hact. unfold vv_at. by rewrite Hmiss.
  - assert (Hpre' : forall h, h ∈ pre -> active h = true ->
                exists l, multiplier lambdas h = Ok l).
    { intros h Hh. apply Hpre. by right. }
    destruct (active g) eqn:Hg; [|by apply IH].
    destruct (Hpre g) as [l Hl]; [by left|done|].
    unfold multiplier in Hl.
    destruct (vv_at lambdas (dualKey g)) as [v|]; simpl in *; [|done].
    rewrite Hl. simpl. destruct (Qlt_bool maxLambda l); by apply IH.
Qed.

(** X2.  [identifyLeavingConstraint] raises [std::out_of_range] as soon as
    it meets an active constraint whose dual key has no entry in the duals:
    the multipliers of the active constraints before it are read, those of
    the inactive ones and of the constraints after it are not. *)
Theorem identifyLeavingConstraint_missing_dual (lambdas : VectorValues)
    (pre post : list LinearInequality) (f : LinearInequality) :
  (forall g, g ∈ pre -> active g = true -> exists l, multiplier lambdas g = Ok l) ->
  active f = true ->
  lambdas !! dualKey f = None ->
  identifyLeavingConstraint (pre ++ f :: post) lambdas = Raise OutOfRange.
Proof.
  intros Hpre Hact Hmiss. unfold identifyLeavingConstraint.
  by apply identifyLeavingConstraint_from_missing.
Qed.

(** With no leaving constraint, no active constraint has a positive
    multiplier. *)
Lemma no_leaving_constraint_signs (ws : list LinearInequality)
    (lambdas : VectorValues) (leaving : Z) :
  identifyLeavingConstraint ws lambdas = Ok leaving ->
  (leaving < 0)%Z ->
  forall f, f ∈ ws -> active f = true ->
    exists l, multiplier lambdas f = Ok l /\ l <= 0.
Proof.
  intros Hleave Hneg f Hf Hact.
  pose proof (identifyLeavingConstraint_from_defined _ _ _ _ _ _ Hleave) as Hdef.
  destruct (Hdef f Hf Hact) as [l Hl]. exists l. split; [done|].
  destruct (identifyLeavingConstraint_from_spec lambdas ws 0 (-1)%Z 0 Hdef)
    as (ix & Hix & Hcase).
  unfold identifyLeavingConstraint in Hleave. rewrite Hleave in Hix.
  injection Hix as <-.
  destruct Hcase as [[_ Hnone] | (i & l' & -> & _)]; [|lia].
  apply list_elem_of_lookup_1 in Hf as [j Hj]. by eapply Hnone.
Qed.

Section IterationProperties.
Context {A : Arith} {B : LinearBackend}.

(** X3.  A converging iteration leaves the store and the working set as
    they are, returns the solved point of the current working set, which is
    within [1e-7] of the previous point, and duals in which every active
    constraint has a multiplier that is not positive. *)
Theorem iterate_converged_dual_signs (qp : QP) (state state' : QPState)
    (σ σ' : Store) (ws : list LinearInequality) :
  readGraph σ (workingSet state) = Ok ws ->
  iterate qp state σ = Ok (state', σ') ->
  converged state' = true ->
  σ' = σ /\ workingSet state' = workingSet state /\
  solveWithCurrentWorkingSet qp ws = Ok (values state') /\
  vv_equals (values state') (values state) tol7 = true /\
  forall f, f ∈ ws -> active f = true ->
    exists l, multiplier (duals state') f = Ok l /\ l <= 0.
Proof.
  intros Hread Hrun Hconv.
  destruct (iterate_cases qp _ _ _ _ _ Hread Hrun)
    as (nv & Hsolve & Hws & _ & Hcase).
  destruct Hcase as [(Heq & Hval & dg & leaving & _ & _ & Hleave & Hend)
                    | (_ & Hc & _)]; [|congruence].
  destruct Hend as [(Hneg & _ & ->) | (i & l & f & _ & _ & _ & _ & _ & Hc & _)];
    [|congruence].
  rewrite Hval. repeat split; try done.
  by apply (no_leaving_constraint_signs ws _ leaving).
Qed.

(** X4.  Without aliasing inside the working set, an iteration changes the
    working set in at most one position, and a change is a real one: an
    active constraint is deactivated, or an inactive one is activated. *)
Theorem iterate_changes_one_position (qp : QP) (state state' : QPState)
    (σ σ' : Store) (ws : list LinearInequality) :
  NoDup (workingSet state) ->
  readGraph σ (workingSet state) = Ok ws ->
  iterate qp state σ = Ok (state', σ') ->
  readGraph σ' (workingSet state') = Ok ws \/
  (exists i f, ws !! i = Some f /\ active f = true /\
     readGraph σ' (workingSet state') = Ok (<[i := inactivate f]> ws)) \/
  (exists i f, ws !! i = Some f /\ active f = false /\
     readGraph σ' (workingSet state') = Ok (<[i := activate f]> ws)).
Proof.
  intros Hnd Hread Hrun.
  destruct (iterate_cases qp _ _ _ _ _ Hread Hrun)
    as (nv & _ & Hws & _ & Hcase).
  rewrite Hws.
  destruct Hcase as [(_ & _ & dg & leaving & _ & _ & _ & Hend)
                    | (_ & _ & _ & p & alpha & ix & _ & _ & _ & Hend)].
  - destruct Hend as [(_ & _ & ->) | (i & l & f & _ & Hl & Hf & Hσ & Hact & _ & ->)];
      [by left|].
    right. left. exists i, f. repeat split; try done.
    by eapply readGraph_insert.
  - destruct Hend as [(_ & _ & ->) | (i & l & f & _ & Hl & Hf & Hσ & Hblock & ->)];
      [by left|].
    right. right. exists i, f. repeat split; try done.
    + destruct Hblock as (g & ? & ? & Hg & Hact & _). congruence.
    + by eapply readGraph_insert.
Qed.

End IterationProperties.

Section Runs.
Context {A : Arith} {B : LinearBackend}.

(** ** The main loop (QPSolver.cpp:264-278) *)

Lemma iterate_reads (qp : QP) (state state' : QPState) (σ σ' : Store) :
  iterate qp state σ = Ok (state', σ') ->
  exists ws, readGraph σ (workingSet state) = Ok ws.
Proof.
  unfold iterate. intros Hrun.
  destruct (readGraph σ (workingSet state)) as [ws|]; [by exists ws|done].
Qed.

Lemma main_loop_converged_start (qp : QP) (fuel : nat) (state : QPState)
    (σ : Store) :
  converged state = true -> main_loop qp fuel state σ = Some (Ok (state, σ)).
Proof. intros Hconv. destruct fuel; simpl; by rewrite Hconv. Qed.

(** A property that every iteration keeps holds when the loop ends, and
    the loop ends by a converging iteration. *)
Lemma main_loop_last (qp : QP) (P : QPState -> Store -> Prop) :
  (forall state σ state' σ',
      P state σ -> iterate qp state σ = Ok (state', σ') -> P state' σ') ->
  forall (fuel : nat) (state : QPState) (σ : Store) (final : QPState) (σf : Store),
    main_loop qp fuel state σ = Some (Ok (final, σf)) ->
    converged state = false ->
    P state σ ->
    exists state' σ',
      P state' σ' /\ iterate qp state' σ' = Ok (final, σf) /\
      converged final = true.
Proof.
  intros Hkeep. induction fuel as [|fuel IH]; intros state σ final σf Hloop Hconv HP;
    simpl in Hloop; rewrite Hconv in Hloop; [done|].
  destruct (iterate qp state σ) as [[state1 σ1]|e] eqn:Hstep; [|done].
  destruct (converged state1) eqn:Hconv1.
  - rewrite main_loop_converged_start in Hloop by done.
    injection Hloop as <- <-. by exists state, σ.
  - apply (IH state1 σ1 final σf Hloop Hconv1). by eapply Hkeep.
Qed.

(** X7.  When the loop ends it has made [n] calls of [iterate], each from
    a state that is not converged, and the last of them returned the
    converged state the loop ends with.  The working set holds the
    references it started with, and the iteration count has grown by [n],
    the number of calls: at least one when the loop starts from a state that
    is not converged, as [optimize] does. *)
Theorem main_loop_counts_iterations (qp : QP) (fuel : nat) :
  forall (state final : QPState) (σ σf : Store),
    main_loop qp fuel state σ = Some (Ok (final, σf)) ->
    exists n : nat,
      (n <= fuel)%nat /\
      calls qp n (state, σ) (final, σf) /\
      converged final = true /\
      workingSet final = workingSet state /\
      iterations final = (iterations state + N.of_nat n)%N /\
      (converged state = false -> (1 <= n)%nat).
Proof.
  induction fuel as [|fuel IH]; intros state final σ σf Hloop; simpl in Hloop.
  - destruct (converged state) eqn:Hconv; [|done]. injection Hloop as <- <-.
    exists 0%nat. split; [lia|]. split; [constructor|].
    repeat split; [done|lia|congruence].
  - destruct (converged state) eqn:Hconv.
    + injection Hloop as <- <-.
      exists 0%nat. split; [lia|]. split; [constructor|].
      repeat split; [done|lia|congruence].
    + destruct (iterate qp state σ) as [[state1 σ1]|e] eqn:Hstep; [|done].
      destruct (iterate_reads _ _ _ _ _ Hstep) as [ws Hread].
      destruct (iterate_cases qp _ _ _ _ _ Hread Hstep)
        as (nv & _ & Hws & Hcount & _).
      destruct (IH _ _ _ _ Hloop) as (n & Hn & Hcalls & Hfinal & Hws' & Hit & _).
      exists (S n). split; [lia|]. split; [by econstructor|].
      split; [done|]. split; [congruence|]. split; [|lia].
      rewrite Hit, Hcount. lia.
Qed.

(** The fresh copies of a run: the working set refers to the store beyond
    the objects that were there, and the copies keep the rows of the
    problem. *)
Lemma run_frame_step (qp : QP) (σ : Store) (state : QPState) (σc : Store)
    (state' : QPState) (σc' : Store) :
  (workingSet state = seq (length σ) (length (inequalities qp)) /\
   exists ws, σc = σ ++ ws /\ Forall2 same_rows ws (inequalities qp)) ->
  iterate qp state σc = Ok (state', σc') ->
  workingSet state' = seq (length σ) (length (inequalities qp)) /\
  exists ws, σc' = σ ++ ws /\ Forall2 same_rows ws (inequalities qp).
Proof.
  intros [Hrefs (ws & -> & Hrows)] Hrun.
  assert (Hlen : length ws = length (inequalities qp)) by by eapply Forall2_length.
  assert (Hread : readGraph (σ ++ ws) (workingSet state) = Ok ws).
  { rewrite Hrefs, <- Hlen. apply readGraph_fresh. }
  destruct (iterate_cases qp _ _ _ _ _ Hread Hrun)
    as (nv & _ & Hws & _ & Hcase).
  split; [congruence|].
  assert (Hflip : forall i l f b,
            workingSet state !! i = Some l -> ws !! i = Some f ->
            exists ws', <[l := set_flag b f]> (σ ++ ws) = σ ++ ws' /\
                        Forall2 same_rows ws' (inequalities qp)).
  { intros i l f b Hl Hf. rewrite Hrefs in Hl.
    apply lookup_seq in Hl as [-> Hi].
    exists (<[i := set_flag b f]> ws). split.
    - rewrite insert_app_r_alt by lia. f_equal. f_equal. lia.
    - destruct (Forall2_lookup_l _ _ _ _ _ Hrows Hf) as (f0 & Hf0 & Hsame).
      rewrite <- (list_insert_id (inequalities qp) i f0 Hf0).
      apply Forall2_insert; [done|].
      eapply same_rows_trans; [apply same_rows_set_flag|done]. }
  destruct Hcase as [(_ & _ & dg & leaving & _ & _ & _ & Hend)
                    | (_ & _ & _ & p & alpha & ix & _ & _ & _ & Hend)].
  - destruct Hend as [(_ & _ & ->) | (i & l & f & _ & Hl & Hf & _ & _ & _ & ->)];
      [by exists ws|].
    apply (Hflip i l f false Hl Hf).
  - destruct Hend as [(_ & _ & ->) | (i & l & f & _ & Hl & Hf & _ & _ & ->)];
      [by exists ws|].
    apply (Hflip i l f true Hl Hf).
Qed.

(** X9.  What [optimize] returns.  The objects that were in the store are
    untouched: the store has grown by one copy per inequality of the
    problem, in order, each with the rows of its original.  The values are
    the solve of the working set these copies form, and in the duals every
    constraint active in it has a multiplier that is not positive. *)
Theorem optimize_result (qp : QP) (fuel : nat) (x0 d0 : VectorValues)
    (w : bool) (σ σ' : Store) (v d : VectorValues) :
  optimize qp fuel x0 d0 w σ = Some (Ok (v, d, σ')) ->
  exists ws,
    σ' = σ ++ ws /\
    Forall2 same_rows ws (inequalities qp) /\
    solveWithCurrentWorkingSet qp ws = Ok v /\
    forall f, f ∈ ws -> active f = true ->
      exists l, multiplier d f = Ok l /\ l <= 0.
Proof.
  unfold optimize. rewrite identifyActiveConstraints_flags. intros Hrun.
  destruct (mapM (initial_flag x0 d0 w) (inequalities qp)) as [flags|] eqn:Hflags;
    simpl in Hrun; [|done].
  set (refs := seq (length σ) (length (inequalities qp))) in *.
  set (ws0 := zip_with set_flag flags (inequalities qp)) in *.
  destruct (main_loop qp fuel _ (σ ++ ws0)) as [[[final σf]|]|] eqn:Hloop;
    [|done|done].
  injection Hrun as <- <- <-.
  assert (Hrows0 : Forall2 same_rows ws0 (inequalities qp)).
  { unfold ws0. destruct (mapM_Ok_lookup _ _ _ Hflags) as [Hl _].
    clear -Hl. revert flags Hl.
    induction (inequalities qp) as [|f l IH]; intros [|b flags] Hl; simpl in *;
      try done.
    constructor; [apply same_rows_set_flag|]. apply IH. lia. }
  destruct (main_loop_last qp
              (fun st s =>
                 workingSet st = seq (length σ) (length (inequalities qp)) /\
                 exists ws, s = σ ++ ws /\ Forall2 same_rows ws (inequalities qp))
              (run_frame_step qp σ) fuel _ _ final σf Hloop eq_refl)
    as (state' & σc & [Hrefs (ws & -> & Hrows)] & Hlast & Hconv).
  { split; [done|]. by exists ws0. }
  assert (Hlen : length ws = length (inequalities qp)) by by eapply Forall2_length.
  assert (Hread : readGraph (σ ++ ws) (workingSet state') = Ok ws).
  { rewrite Hrefs, <- Hlen. apply readGraph_fresh. }
  destruct (iterate_cases qp _ _ _ _ _ Hread Hlast)
    as (nv & Hsolve & _ & _ & Hcase).
  destruct Hcase as [(_ & Hval & dg & leaving & _ & _ & Hleave & Hend)
                    | (_ & Hc & _)]; [|congruence].
  destruct Hend as [(Hneg & _ & ->) | (i & l & f & _ & _ & _ & _ & _ & Hc & _)];
    [|congruence].
  exists ws. rewrite Hval. repeat split; try done.
  by apply (no_leaving_constraint_signs ws _ leaving).
Qed.

End Runs.


(** ** Working-set construction (QPSolver.cpp:231-261) *)

Lemma zip_with_set_flag_rows (ineqs : list LinearInequality) :
  forall flags : list bool,
    length flags = length ineqs ->
    Forall2 same_rows (zip_with set_flag flags ineqs) ineqs.
Proof.
  induction ineqs as [|f ineqs IH]; intros [|b flags] Hlen; simpl in *; try done.
  constructor; [apply same_rows_set_flag|]. apply IH. lia.
Qed.

Section WorkingSetConstruction.
Context {A : Arith} {B : LinearBackend}.

(** X10.  The working set that is returned holds one reference per
    inequality, in the order of the problem; the references are fresh
    (beyond every object that was in the store) and pairwise distinct; the
    objects that were in the store are untouched, and each copy has the rows
    of its original. *)
Theorem identifyActiveConstraints_fresh_references
    (ineqs : list LinearInequality) (x0 d : VectorValues) (w : bool)
    (σ σ' : Store) (ws : InequalityFactorGraph) :
  identifyActiveConstraints ineqs x0 d w σ = Ok (ws, σ') ->
  ws = seq (length σ) (length ineqs) /\ NoDup ws /\
  exists copies,
    σ' = σ ++ copies /\ Forall2 same_rows copies ineqs /\
    readGraph σ' ws = Ok copies.
Proof.
  rewrite identifyActiveConstraints_flags. intros Hrun.
  destruct (mapM _ ineqs) as [flags|] eqn:Hflags; simpl in Hrun; [|done].
  injection Hrun as <- <-.
  destruct (mapM_Ok_lookup _ _ _ Hflags) as [Hlen _].
  split; [done|]. split; [apply NoDup_seq|].
  exists (zip_with set_flag flags ineqs). split; [done|].
  pose proof (zip_with_set_flag_rows ineqs flags Hlen) as Hrows.
  split; [done|].
  rewrite <- (Forall2_length _ _ _ Hrows). apply readGraph_fresh.
Qed.

(** X11.  With the warm-start flag on and duals that are not empty, the
    initial point is not looked at: whatever it is, no violation is
    evaluated, [InfeasibleInitialValues] is not raised, and a constraint is
    active exactly when the duals hold an entry for its dual key. *)
Theorem identifyActiveConstraints_warm_start_skips_check
    (ineqs : list LinearInequality) (x0 d : VectorValues) (σ : Store) :
  (0 < vv_size d)%nat ->
  exists ws σ',
    identifyActiveConstraints ineqs x0 d true σ = Ok (ws, σ') /\
    forall i f, ineqs !! i = Some f ->
      exists l g,
        ws !! i = Some l /\ σ' !! l = Some g /\ same_rows g f /\
        active g = vv_exists d (dualKey f).
Proof.
  intros Hsize. rewrite identifyActiveConstraints_flags.
  rewrite mapM_initial_flag_warm by done. simpl.
  eexists _, _. split; [done|].
  intros i f Hi.
  exists (length σ + i)%nat, (set_flag (vv_exists d (dualKey f)) f).
  split.
  { apply lookup_seq. split; [done|]. by eapply lookup_lt_Some. }
  split.
  { rewrite lookup_app_r by lia.
    replace (length σ + i - length σ)%nat with i by lia.
    by rewrite lookup_zip_with, list_lookup_fmap, Hi. }
  split; [apply same_rows_set_flag|]. by destruct (vv_exists d (dualKey f)).
Qed.

End WorkingSetConstruction.

(** ** The constructor (QPSolver.cpp:30-38) *)

Lemma keyset_insert_sorted (k : Key) (s : list Key) :
  StronglySorted N.lt s -> StronglySorted N.lt (keyset_insert k s).
Proof.
  induction 1 as [|k' s Hs IH Hall]; simpl.
  - repeat constructor.
  - destruct (k <? k')%N eqn:Hlt.
    + apply N.ltb_lt in Hlt. constructor; [by constructor|].
      constructor; [done|]. eapply Forall_impl; [exact Hall|].
      intros x Hx. simpl in Hx. lia.
    + destruct (k =? k')%N eqn:Heq; [by constructor|].
      apply N.ltb_ge in Hlt. apply N.eqb_neq in Heq.
      constructor; [done|]. apply Forall_forall. intros x Hx.
      apply keyset_insert_spec in Hx as [-> | Hx]; [lia|].
      rewrite Forall_forall in Hall. by apply Hall.
Qed.

Lemma keyset_merge_sorted (ks : list Key) :
  forall s, StronglySorted N.lt s -> StronglySorted N.lt (keyset_merge ks s).
Proof.
  unfold keyset_merge. induction ks as [|k ks IH]; intros s Hs; simpl; [done|].
  apply IH. by apply keyset_insert_sorted.
Qed.

Lemma elem_of_concat_fmap {T} (g : T -> list Key) (l : list T) (k : Key) :
  k ∈ concat (g <$> l) <-> exists a, a ∈ l /\ k ∈ g a.
Proof.
  rewrite list_elem_of_In, in_concat. split.
  - intros (ks & Hks & Hk). apply list_elem_of_In, list_elem_of_fmap in Hks
      as (a & -> & Ha). exists a. split; [done|]. by apply list_elem_of_In.
  - intros (a & Ha & Hk). exists (g a). split.
    + apply list_elem_of_In, list_elem_of_fmap. by exists a.
    + by apply list_elem_of_In.
Qed.

Lemma no_member_nil {T} (l : list T) : (forall x, x ∉ l) -> l = [].
Proof. destruct l as [|x l]; [done|]. intros H. destruct (H x). by left. Qed.

Section Constructor.
Context {A : Arith} {B : LinearBackend}.
Variable qp : QP.

Lemma constrainedKeys_spec (k : Key) :
  k ∈ constrainedKeys_ qp <->
  (exists e, e ∈ equalities qp /\ k ∈ (fst <$> eq_terms e)) \/
  (exists f, f ∈ inequalities qp /\ k ∈ (fst <$> terms f)).
Proof.
  unfold constrainedKeys_.
  rewrite !keyset_merge_spec, !elem_of_concat_fmap. split.
  - intros [H | [H | H]]; [by right|by left|by apply elem_of_nil in H].
  - intros [H | H]; [right; by left|by left].
Qed.

(** X12.  The constrained keys are the variables of the equalities and of
    the inequalities, each once, in ascending order: every constrained
    variable is visited once when the dual graph is built. *)
Theorem constrainedKeys_members_ascending :
  (forall k,
      k ∈ constrainedKeys_ qp <->
      (exists e, e ∈ equalities qp /\ k ∈ (fst <$> eq_terms e)) \/
      (exists f, f ∈ inequalities qp /\ k ∈ (fst <$> terms f))) /\
  StronglySorted N.lt (constrainedKeys_ qp).
Proof.
  split; [apply constrainedKeys_spec|].
  unfold constrainedKeys_.
  apply keyset_merge_sorted, keyset_merge_sorted. constructor.
Qed.

(** X13.  The three variable indices of the constructor list, for a
    variable, the positions of the cost terms, of the equalities and of the
    inequalities the variable occurs in, and no other position. *)
Theorem variable_indices_list_touching_terms (k : Key) (i : nat) :
  (i ∈ default [] (costVariableIndex_ qp !! k)
   <-> exists c, cost qp !! i = Some c /\ k ∈ costKeys c) /\
  (i ∈ default [] (equalityVariableIndex_ qp !! k)
   <-> exists e, equalities qp !! i = Some e /\ k ∈ (fst <$> eq_terms e)) /\
  (i ∈ default [] (inequalityVariableIndex_ qp !! k)
   <-> exists f, inequalities qp !! i = Some f /\ k ∈ (fst <$> terms f)).
Proof.
  unfold costVariableIndex_, equalityVariableIndex_, inequalityVariableIndex_.
  rewrite !variableIndex_spec. repeat split.
  - intros (ks & Hi & Hk). rewrite list_lookup_fmap in Hi.
    destruct (cost qp !! i) as [c|]; [|done]. injection Hi as <-. by exists c.
  - intros (c & Hc & Hk). exists (costKeys c). by rewrite list_lookup_fmap, Hc.
  - intros (ks & Hi & Hk). rewrite list_lookup_fmap in Hi.
    destruct (equalities qp !! i) as [e|]; [|done]. injection Hi as <-. by exists e.
  - intros (e & He & Hk). exists (fst <$> eq_terms e).
    by rewrite list_lookup_fmap, He.
  - intros (ks & Hi & Hk). rewrite list_lookup_fmap in Hi.
    destruct (inequalities qp !! i) as [f|]; [|done]. injection Hi as <-. by exists f.
  - intros (f & Hf & Hk). exists (fst <$> terms f).
    by rewrite list_lookup_fmap, Hf.
Qed.

(** ** Dual factors and the dual graph (QPSolver.cpp:52-90) *)

Lemma sum_gradients_length (key : Key) (delta : VectorValues) (ixs : list nat) :
  forall b b', sum_gradients qp key delta ixs b = Ok b' -> length b' = length b.
Proof.
  induction ixs as [|ix ixs IH]; intros b b' Hrun; simpl in Hrun.
  - by injection Hrun as <-.
  - destruct (cost qp !! ix) as [c|]; simpl in Hrun; [|done].
    destruct (gradient c key delta) as [g|]; simpl in Hrun; [|done].
    unfold vec_add in Hrun.
    destruct (decide (length b = length g)) as [Hlen|]; simpl in Hrun; [|done].
    rewrite (IH _ _ Hrun), length_zip_with. lia.
Qed.

(** X14.  A dual factor that is not empty has read the variable in the
    point it is given: its right-hand side has the dimension of that
    variable, and it is the zero vector when no cost term touches the
    variable. *)
Theorem createDualFactor_right_hand_side (key : Key)
    (ws : list LinearInequality) (delta : VectorValues) (j : JacobianFactor) :
  createDualFactor qp key ws delta = Ok j ->
  jac_empty j = false ->
  exists dv,
    delta !! key = Some dv /\ length (jac_b j) = length dv /\
    ((forall c, c ∈ cost qp -> key ∉ costKeys c) -> jac_b j = zero (length dv)).
Proof.
  unfold createDualFactor. intros Hrun Hne.
  destruct (collectDualJacobians_eq key (equalities qp) _) as [Aeq|];
    simpl in Hrun; [|done].
  destruct (collectDualJacobians_ineq key ws _) as [Aineq|]; simpl in Hrun; [|done].
  destruct (0 <? length (Aeq ++ Aineq))%nat.
  2:{ injection Hrun as <-. done. }
  unfold vv_at in Hrun.
  destruct (delta !! key) as [dv|]; simpl in Hrun; [|done].
  destruct (sum_gradients _ _ _ _ _) as [b|] eqn:Hsum; simpl in Hrun; [|done].
  injection Hrun as <-. simpl. exists dv. split; [done|]. split.
  - rewrite (sum_gradients_length _ _ _ _ _ Hsum). unfold zero.
    by rewrite length_replicate.
  - intros Hcost.
    assert (Hnil : default [] (costVariableIndex_ qp !! key) = []).
    { apply no_member_nil. intros i Hi.
      unfold costVariableIndex_ in Hi. apply variableIndex_spec in Hi
        as (ks & Hks & Hk). rewrite list_lookup_fmap in Hks.
      destruct (cost qp !! i) as [c|] eqn:Hc; [|done]. injection Hks as <-.
      apply (Hcost c); [by eapply list_elem_of_lookup_2|done]. }
    rewrite Hnil in Hsum. simpl in Hsum. by injection Hsum as <-.
Qed.

Lemma collectDualJacobians_ineq_inactive (key : Key)
    (ws : list LinearInequality) (ixs : list nat) :
  (forall i, i ∈ ixs -> exists f, ws !! i = Some f /\ active f = false) ->
  collectDualJacobians_ineq key ws ixs = Ok [].
Proof.
  induction ixs as [|ix ixs IH]; intros Hall; simpl; [done|].
  destruct (Hall ix) as (f & -> & Hact); [by left|]. simpl. rewrite Hact.
  apply IH. intros i Hi. apply Hall. by right.
Qed.

Lemma buildDualGraph_from_nonempty (keys : list Key)
    (ws : list LinearInequality) (delta : VectorValues) :
  forall dualGraph,
    buildDualGraph_from qp keys ws delta = Ok dualGraph ->
    Forall (fun g => exists j, g = JacobianTerm j /\ jac_empty j = false) dualGraph /\
    (length dualGraph <= length keys)%nat.
Proof.
  induction keys as [|key keys IH]; intros dualGraph Hrun; simpl in Hrun.
  - injection Hrun as <-. split; [constructor|done].
  - destruct (createDualFactor qp key ws delta) as [j|]; simpl in Hrun; [|done].
    destruct (buildDualGraph_from qp keys ws delta) as [rest|]; simpl in Hrun; [|done].
    destruct (IH rest eq_refl) as [Hall Hlen].
    destruct (jac_empty j) eqn:Hempty; simpl in Hrun; injection Hrun as <-.
    + split; [done|]. simpl. lia.
    + split; [|simpl; lia]. constructor; [|done]. by exists j.
Qed.

(** X15.  The dual graph holds at most one factor per constrained
    variable, each one a dual factor that is not empty.  Its variables are
    dual keys of equalities or of active constraints of the working set, and
    the dual key of every active constraint that touches a variable is among
    them. *)
Theorem buildDualGraph_variables (ws : list LinearInequality)
    (delta : VectorValues) (dualGraph : list (GaussianFactor Cost)) :
  Forall2 same_rows ws (inequalities qp) ->
  buildDualGraph qp ws delta = Ok dualGraph ->
  Forall (fun g => exists j, g = JacobianTerm j /\ jac_empty j = false) dualGraph /\
  (length dualGraph <= length (constrainedKeys_ qp))%nat /\
  (forall kd, kd ∈ graph_keys dualGraph ->
     (exists e, e ∈ equalities qp /\ eq_dualKey e = kd) \/
     (exists f, f ∈ ws /\ active f = true /\ dualKey f = kd)) /\
  (forall f, f ∈ ws -> active f = true -> terms f <> [] ->
     dualKey f ∈ graph_keys dualGraph).
Proof.
  intros Hrows Hbuild. unfold buildDualGraph in Hbuild.
  destruct (buildDualGraph_from_nonempty _ _ _ _ Hbuild) as [Hall Hlen].
  split; [done|]. split; [done|]. split.
  - intros kd Hkd.
    destruct (buildDualGraph_from_keys qp _ _ _ _ Hbuild kd) as [Hfrom _].
    destruct (Hfrom Hkd) as [H | (i & f & Hi & Hact & Hk)]; [by left|].
    right. exists f. split; [by eapply list_elem_of_lookup_2|done].
  - intros f Hf Hact Hterms.
    destruct (buildDualGraph_from_keys qp _ _ _ _ Hbuild (dualKey f)) as [_ Hto].
    apply Hto. apply list_elem_of_lookup_1 in Hf as [i Hi].
    destruct (Forall2_lookup_l _ _ _ _ _ Hrows Hi) as (f0 & Hi0 & Ht & _ & _).
    destruct (terms f) as [|[key a] ts] eqn:Hts; [done|].
    assert (Hkey : key ∈ (fst <$> terms f0)). { rewrite <- Ht. by left. }
    exists key, i, f. repeat split; try done.
    + apply constrainedKeys_spec. right. exists f0.
      split; [by eapply list_elem_of_lookup_2|done].
    + unfold inequalityVariableIndex_. apply variableIndex_spec.
      exists (fst <$> terms f0). by rewrite list_lookup_fmap, Hi0.
Qed.

(** X16.  With no equality in the problem and no active constraint in the
    working set, the dual graph is empty, whatever the point: no dual
    factor is built and the point is not read. *)
Theorem buildDualGraph_without_active_constraints
    (ws : list LinearInequality) (delta : VectorValues) :
  equalities qp = [] ->
  Forall2 same_rows ws (inequalities qp) ->
  (forall f, f ∈ ws -> active f = false) ->
  buildDualGraph qp ws delta = Ok [].
Proof.
  intros Heqs Hrows Hinactive. unfold buildDualGraph.
  assert (Hfactor : forall key, createDualFactor qp key ws delta = Ok emptyJacobianFactor).
  { intros key. unfold createDualFactor, equalityVariableIndex_.
    rewrite Heqs. simpl.
    rewrite collectDualJacobians_ineq_inactive; [done|].
    intros i Hi. unfold inequalityVariableIndex_ in Hi.
    apply variableIndex_spec in Hi as (ks & Hks & _).
    rewrite list_lookup_fmap in Hks.
    destruct (inequalities qp !! i) as [f0|] eqn:Hf0; [|done].
    destruct (Forall2_lookup_r _ _ _ _ _ Hrows Hf0) as (f & Hf & _).
    exists f. split; [done|]. apply Hinactive. by eapply list_elem_of_lookup_2. }
  induction (constrainedKeys_ qp) as [|key keys IH]; simpl; [done|].
  by rewrite Hfactor, IH.
Qed.

End Constructor.

(** ** The further properties on concrete inputs *)

(** In the arithmetic of the [double]s the ratios [1/3] of [3 x <= 1] and
    [fl(1/3) / 1] of [x <= fl(1/3)] are the same number, and the first
    constraint is returned. *)
Lemma computeStepSize_first_minimum_witness :
  rows_defined (A := binary64) Inputs.thirds (Scalar.point 0) (Scalar.point 1) /\
  exists alpha ix,
    computeStepSize (A := binary64) Inputs.thirds (Scalar.point 0) (Scalar.point 1)
      = Ok (alpha, ix) /\
    ((ix = (-1)%Z /\ alpha = 1 /\
      forall j a,
        blocks_at (A := binary64) Inputs.thirds (Scalar.point 0) (Scalar.point 1) j a ->
        1 <= a) \/
     (exists i, ix = Z.of_nat i /\ alpha < 1 /\
        first_blocking (A := binary64) Inputs.thirds (Scalar.point 0)
          (Scalar.point 1) i alpha)).
Proof.
  assert (Hdef : rows_defined (A := binary64) Inputs.thirds
                   (Scalar.point 0) (Scalar.point 1)).
  { intros f Hf _. unfold Inputs.thirds in Hf.
    repeat (apply elem_of_cons in Hf as [-> | Hf]);
      [split; eexists; vm_compute; reflexivity..|by apply elem_of_nil in Hf]. }
  split; [exact Hdef|].
  exact (computeStepSize_first_minimum (A := binary64) Inputs.thirds
           (Scalar.point 0) (Scalar.point 1) Hdef).
Defined.

(** The same scan in the two arithmetics: the [double]s tie and the first
    constraint is returned; without rounding the second ratio is the
    smaller one. *)
Lemma ratio_tie_depends_on_rounding :
  computeStepSize (A := binary64) Inputs.thirds (Scalar.point 0) (Scalar.point 1)
    = Ok (Inputs.third, 0%Z) /\
  exists alpha,
    computeStepSize (A := exact) Inputs.thirds (Scalar.point 0) (Scalar.point 1)
      = Ok (alpha, 1%Z) /\ alpha == Inputs.third.
Proof.
  split; [vm_compute; reflexivity|].
  eexists. split; [vm_compute; reflexivity|]. vm_compute. reflexivity.
Qed.

Lemma identifyLeavingConstraint_missing_dual_witness :
  ((forall g, g ∈ [Scalar.bound 1 5] -> active g = true ->
      exists l, multiplier ∅ g = Ok l) /\
   active (activate (Scalar.bound 1 5)) = true /\
   (∅ : VectorValues) !! dualKey (activate (Scalar.bound 1 5)) = None) /\
  identifyLeavingConstraint ([Scalar.bound 1 5] ++ activate (Scalar.bound 1 5) :: [])
    ∅ = Raise OutOfRange.
Proof.
  assert (Hpre : forall g, g ∈ [Scalar.bound 1 5] -> active g = true ->
            exists l, multiplier ∅ g = Ok l).
  { intros g Hg Hact. apply list_elem_of_singleton in Hg as ->. discriminate Hact. }
  split; [exact (conj Hpre (conj eq_refl eq_refl))|].
  exact (identifyLeavingConstraint_missing_dual ∅ [Scalar.bound 1 5] []
           (activate (Scalar.bound 1 5)) Hpre eq_refl eq_refl).
Defined.

Lemma iterate_converged_dual_signs_witness :
  exists state',
    (readGraph Inputs.solved_store (workingSet Inputs.solved_state)
       = Ok Inputs.solved_store /\
     iterate Examples.blocked_qp Inputs.solved_state Inputs.solved_store
       = Ok (state', Inputs.solved_store) /\
     converged state' = true) /\
    (Inputs.solved_store = Inputs.solved_store /\
     workingSet state' = workingSet Inputs.solved_state /\
     solveWithCurrentWorkingSet Examples.blocked_qp Inputs.solved_store
       = Ok (values state') /\
     vv_equals (values state') (values Inputs.solved_state) tol7 = true /\
     forall f, f ∈ Inputs.solved_store -> active f = true ->
       exists l, multiplier (duals state') f = Ok l /\ l <= 0).
Proof.
  eexists.
  assert (Hrun : iterate Examples.blocked_qp Inputs.solved_state Inputs.solved_store
                 = Ok (mkQPState (Scalar.point 5) Inputs.minus_five [0%nat] true 1,
                       Inputs.solved_store)).
  { vm_compute; reflexivity. }
  split; [exact (conj eq_refl (conj Hrun eq_refl))|].
  exact (iterate_converged_dual_signs Examples.blocked_qp Inputs.solved_state _
           Inputs.solved_store Inputs.solved_store Inputs.solved_store
           eq_refl Hrun eq_refl).
Defined.

Lemma iterate_changes_one_position_witness :
  exists state' σ',
    (NoDup (workingSet Examples.blocked_state) /\
     readGraph Examples.blocked_store (workingSet Examples.blocked_state)
       = Ok Examples.blocked_store /\
     iterate Examples.blocked_qp Examples.blocked_state Examples.blocked_store
       = Ok (state', σ')) /\
    (readGraph σ' (workingSet state') = Ok Examples.blocked_store \/
     (exists i f, Examples.blocked_store !! i = Some f /\ active f = true /\
        readGraph σ' (workingSet state')
        = Ok (<[i := inactivate f]> Examples.blocked_store)) \/
     (exists i f, Examples.blocked_store !! i = Some f /\ active f = false /\
        readGraph σ' (workingSet state')
        = Ok (<[i := activate f]> Examples.blocked_store))).
Proof.
  eexists _, _.
  assert (Hrun : iterate Examples.blocked_qp Examples.blocked_state
                   Examples.blocked_store
                 = Ok (mkQPState (Scalar.point (50 # 10)) ∅ [0%nat] false 1,
                       [activate (Scalar.bound 1 5)])).
  { vm_compute; reflexivity. }
  assert (Hnd : NoDup (workingSet Examples.blocked_state)).
  { apply NoDup_singleton. }
  split; [exact (conj Hnd (conj eq_refl Hrun))|].
  exact (iterate_changes_one_position Examples.blocked_qp Examples.blocked_state _
           Examples.blocked_store _ Examples.blocked_store Hnd eq_refl Hrun).
Defined.

Lemma optimize_result_witness :
  optimize Examples.blocked_qp 5 (Scalar.point 0) ∅ false []
  = Some (Ok (Scalar.point 5, Inputs.minus_five, [] ++ Inputs.solved_store)) /\
  exists ws,
    [] ++ Inputs.solved_store = [] ++ ws /\
    Forall2 same_rows ws (inequalities Examples.blocked_qp) /\
    solveWithCurrentWorkingSet Examples.blocked_qp ws = Ok (Scalar.point 5) /\
    forall f, f ∈ ws -> active f = true ->
      exists l, multiplier Inputs.minus_five f = Ok l /\ l <= 0.
Proof.
  assert (Hrun : optimize Examples.blocked_qp 5 (Scalar.point 0) ∅ false []
                 = Some (Ok (Scalar.point 5, Inputs.minus_five,
                             [] ++ Inputs.solved_store))).
  { vm_compute; reflexivity. }
  split; [exact Hrun|].
  exact (optimize_result Examples.blocked_qp 5 (Scalar.point 0) ∅ false []
           _ _ _ Hrun).
Defined.

Lemma identifyActiveConstraints_fresh_references_witness :
  identifyActiveConstraints Inputs.three_bounds (Scalar.point 0) ∅ false
    Inputs.solved_store
  = Ok ([1%nat; 2%nat; 3%nat], Inputs.solved_store ++ Inputs.three_bounds) /\
  ([1%nat; 2%nat; 3%nat]
   = seq (length Inputs.solved_store) (length Inputs.three_bounds) /\
   NoDup [1%nat; 2%nat; 3%nat] /\
   exists copies,
     Inputs.solved_store ++ Inputs.three_bounds = Inputs.solved_store ++ copies /\
     Forall2 same_rows copies Inputs.three_bounds /\
     readGraph (Inputs.solved_store ++ Inputs.three_bounds) [1%nat; 2%nat; 3%nat]
     = Ok copies).
Proof.
  assert (Hrun : identifyActiveConstraints Inputs.three_bounds (Scalar.point 0) ∅
                   false Inputs.solved_store
                 = Ok ([1%nat; 2%nat; 3%nat],
                       Inputs.solved_store ++ Inputs.three_bounds)).
  { vm_compute; reflexivity. }
  split; [exact Hrun|].
  exact (identifyActiveConstraints_fresh_references _ _ _ _ _ _ _ Hrun).
Defined.

(** The warm start accepts the infeasible point [x = 100] under [x <= 5]. *)
Lemma identifyActiveConstraints_warm_start_skips_check_witness :
  (0 < vv_size Inputs.minus_five)%nat /\
  (exists v, error (Scalar.bound 1 5) (Scalar.point 100) = Ok v /\ 0 < v) /\
  exists ws σ',
    identifyActiveConstraints [Scalar.bound 1 5] (Scalar.point 100)
      Inputs.minus_five true [] = Ok (ws, σ') /\
    forall i f, [Scalar.bound 1 5] !! i = Some f ->
      exists l g,
        ws !! i = Some l /\ σ' !! l = Some g /\ same_rows g f /\
        active g = vv_exists Inputs.minus_five (dualKey f).
Proof.
  assert (Hsize : (0 < vv_size Inputs.minus_five)%nat).
  { vm_compute. lia. }
  split; [exact Hsize|]. split.
  { eexists. split; [vm_compute; reflexivity|]. reflexivity. }
  exact (identifyActiveConstraints_warm_start_skips_check [Scalar.bound 1 5]
           (Scalar.point 100) Inputs.minus_five [] Hsize).
Defined.

Lemma createDualFactor_right_hand_side_witness :
  exists j,
    (createDualFactor Examples.blocked_qp 0%N Inputs.solved_store (Scalar.point 5)
       = Ok j /\ jac_empty j = false) /\
    exists dv,
      Scalar.point 5 !! 0%N = Some dv /\ length (jac_b j) = length dv /\
      ((forall c, c ∈ cost Examples.blocked_qp -> 0%N ∉ costKeys c) ->
         jac_b j = zero (length dv)).
Proof.
  eexists.
  assert (Hrun : createDualFactor Examples.blocked_qp 0%N Inputs.solved_store
                   (Scalar.point 5)
                 = Ok (mkJacobianFactor [(1%N, [[1]])] [0 + (5 - 10)])).
  { vm_compute; reflexivity. }
  split; [exact (conj Hrun eq_refl)|].
  exact (createDualFactor_right_hand_side Examples.blocked_qp 0%N
           Inputs.solved_store (Scalar.point 5) _ Hrun eq_refl).
Defined.

Lemma buildDualGraph_variables_witness :
  exists dualGraph,
    (Forall2 same_rows Inputs.solved_store (inequalities Examples.blocked_qp) /\
     buildDualGraph Examples.blocked_qp Inputs.solved_store (Scalar.point 5)
       = Ok dualGraph) /\
    (Forall (fun g => exists j, g = JacobianTerm j /\ jac_empty j = false) dualGraph /\
     (length dualGraph <= length (constrainedKeys_ Examples.blocked_qp))%nat /\
     (forall kd, kd ∈ graph_keys dualGraph ->
        (exists e, e ∈ equalities Examples.blocked_qp /\ eq_dualKey e = kd) \/
        (exists f, f ∈ Inputs.solved_store /\ active f = true /\ dualKey f = kd)) /\
     (forall f, f ∈ Inputs.solved_store -> active f = true -> terms f <> [] ->
        dualKey f ∈ graph_keys dualGraph)).
Proof.
  eexists.
  assert (Hrows : Forall2 same_rows Inputs.solved_store
                    (inequalities Examples.blocked_qp)).
  { repeat constructor. }
  assert (Hrun : buildDualGraph Examples.blocked_qp Inputs.solved_store
                   (Scalar.point 5)
                 = Ok [JacobianTerm (mkJacobianFactor [(1%N, [[1]])] [0 + (5 - 10)])]).
  { vm_compute; reflexivity. }
  split; [exact (conj Hrows Hrun)|].
  exact (buildDualGraph_variables Examples.blocked_qp Inputs.solved_store
           (Scalar.point 5) _ Hrows Hrun).
Defined.

Lemma buildDualGraph_without_active_constraints_witness :
  (equalities Examples.blocked_qp = [] /\
   Forall2 same_rows Examples.blocked_store (inequalities Examples.blocked_qp) /\
   (forall f, f ∈ Examples.blocked_store -> active f = false)) /\
  buildDualGraph Examples.blocked_qp Examples.blocked_store ∅ = Ok [].
Proof.
  assert (Hrows : Forall2 same_rows Examples.blocked_store
                    (inequalities Examples.blocked_qp)).
  { repeat constructor. }
  assert (Hinactive : forall f, f ∈ Examples.blocked_store -> active f = false).
  { intros f Hf. by apply list_elem_of_singleton in Hf as ->. }
  split; [exact (conj eq_refl (conj Hrows Hinactive))|].
  exact (buildDualGraph_without_active_constraints Examples.blocked_qp
           Examples.blocked_store ∅ eq_refl Hrows Hinactive).
Defined.

Lemma main_loop_counts_iterations_witness :
  main_loop Examples.blocked_qp 5 Examples.blocked_state Examples.blocked_store
    = Some (Ok (Inputs.final_state, Inputs.solved_store)) /\
  exists n : nat,
    (n <= 5)%nat /\
    calls Examples.blocked_qp n
      (Examples.blocked_state, Examples.blocked_store)
      (Inputs.final_state, Inputs.solved_store) /\
    converged Inputs.final_state = true /\
    workingSet Inputs.final_state = workingSet Examples.blocked_state /\
    iterations Inputs.final_state
    = (iterations Examples.blocked_state + N.of_nat n)%N /\
    (converged Examples.blocked_state = false -> (1 <= n)%nat).
Proof.
  assert (Hrun : main_loop Examples.blocked_qp 5 Examples.blocked_state
                   Examples.blocked_store
                 = Some (Ok (Inputs.final_state, Inputs.solved_store))).
  { vm_compute; reflexivity. }
  split; [exact Hrun|].
  exact (main_loop_counts_iterations Examples.blocked_qp 5
           Examples.blocked_state Inputs.final_state
           Examples.blocked_store Inputs.solved_store Hrun).
Defined.
